(** * A shallow embedding of the mini search engine (main.go)

    The engine keeps an inverted index from lower-case tokens to posting
    lists of document ids and ranks documents with TF-IDF (the live path of
    [Search]) or BM25 (defined, not wired in).

    Data is modelled as the Go code has it:
    - [string] is a sequence of bytes ([Ascii.ascii]); [len] is the byte count;
    - [int] is [Z] (every integer the program forms is a length or a document
      id, far from the 64-bit bounds);
    - [float64] is the kernel's binary64 type [PrimFloat.float], so [+], [*],
      [/] and [<] round and compare as IEEE 754 prescribes, each operation
      on its own (no fused multiply-add);
    - [map[K]V] is a [gmap K V]; a slice is a [list];
    - an index expression [s[i]] out of range panics: functions that index
      return [option], [None] standing for the run-time panic.

    Functions of Go's standard library are modelled on the part of their
    domain that the program's texts live in: [strings.ToLower],
    [strings.Fields] and [strings.TrimSpace] act on the ASCII range (bytes of 128 and above are kept
    as they are and never separate fields: this agrees with Go on every
    valid UTF-8 string whose non-ASCII runes are neither cased letters nor
    Unicode spaces, in particular on the corpus of [main]), and
    [strings.Count] is the library's loop over [Index].  [math.Log] is not
    defined by the repository and has no counterpart among the kernel's
    float operations: it is a parameter [Log] of the scoring section. *)

From Stdlib Require Import ZArith Floats Uint63 Ascii String List Sorted Lia.
From stdpp Require Import gmap strings list fin_maps sorting.

Set Warnings "-inexact-float".

Open Scope string_scope.
Open Scope list_scope.
Open Scope Z_scope.

(** ** Go's [strings] package, on bytes *)

Module strings.

(** ['A' <= c && c <= 'Z'] *)
Definition is_upper (c : ascii) : bool :=
  let n := nat_of_ascii c in (65 <=? n)%nat && (n <=? 90)%nat.

(** [c += 'a' - 'A'] for an upper-case ASCII letter. *)
Definition lower_byte (c : ascii) : ascii :=
  if is_upper c then ascii_of_nat (nat_of_ascii c + 32) else c.

(** [strings.ToLower], byte by byte. *)
Fixpoint ToLower (s : string) : string :=
  match s with
  | EmptyString => EmptyString
  | String c s' => String (lower_byte c) (ToLower s')
  end.

(** The table [asciiSpace]: tab, newline, vertical tab, form feed,
    carriage return and space. *)
Definition asciiSpace (c : ascii) : bool :=
  let n := nat_of_ascii c in
  ((9 <=? n)%nat && (n <=? 13)%nat) || (n =? 32)%nat.

(** The scanning loop of [strings.Fields]: [field] is the slice
    [s[fieldStart:i]] read so far. *)
Fixpoint Fields_from (field : string) (s : string) : list string :=
  match s with
  | EmptyString =>
      match field with EmptyString => [] | _ => [field] end
  | String c s' =>
      if asciiSpace c then
        match field with
        | EmptyString => Fields_from EmptyString s'
        | _ => field :: Fields_from EmptyString s'
        end
      else Fields_from (field ++ String c EmptyString)%string s'
  end.

Definition Fields (s : string) : list string := Fields_from EmptyString s.

(** [s[n:]], empty when [n] reaches the end. *)
Fixpoint drop_bytes (n : nat) (s : string) : string :=
  match n, s with
  | O, _ => s
  | S _, EmptyString => EmptyString
  | S n', String _ s' => drop_bytes n' s'
  end.

(** [strings.Index]: the offset of the first instance of [substr] in [s],
    [None] for Go's [-1]. *)
Fixpoint Index (s substr : string) : option nat :=
  if String.prefix substr s then Some O
  else match s with
       | EmptyString => None
       | String _ s' => S <$> Index s' substr
       end.

(** A byte that continues a UTF-8 sequence ([10xxxxxx]). *)
Definition is_continuation (c : ascii) : bool :=
  let n := nat_of_ascii c in (128 <=? n)%nat && (n <? 192)%nat.

(** [utf8.RuneCountInString] on valid UTF-8: one rune per leading byte. *)
Fixpoint RuneCountInString (s : string) : Z :=
  match s with
  | EmptyString => 0
  | String c s' =>
      (if is_continuation c then 0 else 1) + RuneCountInString s'
  end.

(** The loop of [strings.Count]:
    [for { i := Index(s, substr); if i == -1 { return n }; n++;
           s = s[i+len(substr):] }].
    Each round with a match shortens [s], so [S (length s)] rounds are
    enough (see [Count_loop_fuel]). *)
Fixpoint Count_loop (fuel : nat) (s substr : string) : Z :=
  match fuel with
  | O => 0
  | S fuel' =>
      match Index s substr with
      | None => 0
      | Some i =>
          1 + Count_loop fuel' (drop_bytes (i + String.length substr) s) substr
      end
  end.

(** [strings.Count]: non-overlapping instances of [substr] in [s]; for the
    empty [substr], one more than the number of runes. *)
Definition Count (s substr : string) : Z :=
  match substr with
  | EmptyString => RuneCountInString s + 1
  | _ => Count_loop (S (String.length s)) s substr
  end.

(** The two scans of [strings.TrimSpace]: [start] moves right past the
    leading white space, [stop] moves left past the trailing white space;
    the result is [s[start:stop]]. *)
Fixpoint trim_start (s : string) : string :=
  match s with
  | EmptyString => EmptyString
  | String c s' => if asciiSpace c then trim_start s' else s
  end.

Fixpoint trim_stop (s : string) : string :=
  match s with
  | EmptyString => EmptyString
  | String c s' =>
      match trim_stop s' with
      | EmptyString => if asciiSpace c then EmptyString else String c EmptyString
      | rest => String c rest
      end
  end.

Definition TrimSpace (s : string) : string := trim_stop (trim_start s).

End strings.

(** [len(s)] of a string, as an [int]. *)
Definition len_string (s : string) : Z := Z.of_nat (String.length s).

(** [len(x)] of a slice, as an [int]. *)
Definition len {A} (x : list A) : Z := Z.of_nat (length x).

(** The conversion [float64(n)] of an [int]: rounded to nearest. *)
Definition float64 (n : Z) : float :=
  if n <? 0 then PrimFloat.opp (PrimFloat.of_uint63 (Uint63.of_Z (- n)))
  else PrimFloat.of_uint63 (Uint63.of_Z n).

(** ** Data model (main.go, lines 12-25) *)

Record Document := mkDocument {
  ID : Z;
  Content : string;
  Score : float
}.

Record SearchEngine := mkSearchEngine {
  index : gmap string (list Z);
  documents : list Document;
  avgDocLength : float;
  k1 : float;
  k2 : float
}.

(** [documents[docID]]: [None] is the index-out-of-range panic. *)
Definition at_index (documents : list Document) (docID : Z) : option Document :=
  if docID <? 0 then None else documents !! Z.to_nat docID.

(** ** BuildInvertedIndex (main.go, lines 27-42) *)

(** The body of the inner loop, for one token of document [docID]. *)
Definition index_token (docID : Z) (index : gmap string (list Z)) (token : string)
  : gmap string (list Z) :=
  let index :=
    match index !! token with
    | Some _ => index
    | None => <[token := []]> index
    end in
  <[token := (default [] (index !! token) ++ [docID])%list]> index.

(** The body of the outer loop, for one document. *)
Definition index_document (index : gmap string (list Z)) (doc : Document)
  : gmap string (list Z) :=
  let tokens := strings.Fields (strings.ToLower (Content doc)) in
  foldl (index_token (ID doc)) index tokens.

Definition BuildInvertedIndex (documents : list Document) : gmap string (list Z) :=
  foldl index_document ∅ documents.

(** ** Engine construction (main, lines 133-138) *)

(** The loop [for _, doc := range documents { docLength += float64(len(doc.Content)) }],
    started from [docLength := 0.]. *)
Definition main_docLength (documents : list Document) : float :=
  foldl (λ docLength doc, (docLength + float64 (len_string (Content doc)))%float)
        0%float documents.

(** The struct literal of line 138, with the corpus as a parameter.  The
    constant [1.2] denotes the binary64 value nearest to it, here as in Go. *)
Definition main_searchEngine (documents : list Document) : SearchEngine :=
  {| index := BuildInvertedIndex documents;
     documents := documents;
     avgDocLength := (main_docLength documents / float64 (len documents))%float;
     k1 := 1.2%float;
     k2 := 0.75%float |}.

(** The corpus of [main] (lines 99-131). *)
Definition main_documents : list Document :=
  [
    mkDocument 0 "Lorem ipsum blah blah fox" 0;
    mkDocument 1 "The quick brown fox jumped over the lazy dog. The dog slept peacefully." 0;
    mkDocument 2 "I have a dream that one day this nation will rise up and live out the true meaning of its creed: 'We hold these truths to be self-evident, that all men are created equal.'" 0;
    mkDocument 3 "To be, or not to be, that is the question: Whether 'tis nobler in the mind to suffer The slings and arrows of outrageous fortune, Or to take arms against a sea of troubles And by opposing end them." 0;
    mkDocument 4 "In a hole in the ground there lived a hobbit. Not a nasty, dirty, wet hole, filled with the ends of worms and an oozy smell, nor yet a dry, bare, sandy hole with nothing in it to sit down on or to eat: it was a hobbit-hole, and that means comfort." 0;
    mkDocument 5 "The only way to do great work is to love what you do. If you haven't found it yet, keep looking. Don't settle. As with all matters of the heart, you'll know when you find it." 0;
    mkDocument 6 "It is a truth universally acknowledged, that a single man in possession of a good fortune, must be in want of a wife." 0;
    mkDocument 7 "It was the best of times, it was the worst of times, it was the age of wisdom, it was the age of foolishness, it was the epoch of belief, it was the epoch of incredulity, it was the season of Light, it was the season of Darkness, it was the spring of hope, it was the winter of despair." 0;
    mkDocument 8 "Two households, both alike in dignity, In fair Verona, where we lay our scene, From ancient grudge break to new mutiny, Where civil blood makes civil hands unclean." 0;
    mkDocument 9 "Once upon a time in a far-off land, there was a princess who was very beautiful and very kind, but also very sad." 0;
    mkDocument 10 "It is not in the stars to hold our destiny but in ourselves." 0;
    mkDocument 11 "In the beginning God created the heaven and the earth. And the earth was without form, and void; and darkness was upon the face of the deep. And the Spirit of God moved upon the face of the waters." 0;
    mkDocument 12 "There are known knowns; there are things we know we know. We also know there are known unknowns; that is to say we know there are some things we do not know. But there are also unknown unknowns – the ones we don't know we don't know." 0;
    mkDocument 13 "When I consider how my light is spent Ere half my days in this dark world and wide, And that one talent which is death to hide Lodg'd with me useless, though my soul more bent To serve therewith my Maker, and present My true account, lest he returning chide;" 0;
    mkDocument 14 "I wandered lonely as a cloud That floats on high o'er vales and hills, When all at once I saw a crowd, A host, of golden daffodils; Beside the lake, beneath the trees, Fluttering and dancing in the breeze." 0;
    mkDocument 15 "Do not go gentle into that good night, Old age should burn and rave at close of day; Rage, rage against the dying of the light." 0;
    mkDocument 16 "The sun was shining on the sea, Shining with all his might: He did his very best to make The billows smooth and bright." 0;
    mkDocument 17 "In Xanadu did Kubla Khan A stately pleasure-dome decree: Where Alph, the sacred river, ran Through caverns measureless to man Down to a sunless sea." 0;
    mkDocument 18 "I celebrate myself, and sing myself, And what I assume you shall assume, For every atom belonging to me as good belongs to you." 0;
    mkDocument 19 "The love that moves the sun and all the stars." 0;
    mkDocument 20 "It was a bright cold day in April, and the clocks were striking thirteen. Winston Smith, his chin nuzzled into his breast in an effort to escape the vile wind, slipped quickly through the glass doors of Victory Mansions, though not quickly enough to prevent a swirl of gritty dust from entering along with him." 0;
    mkDocument 21 "It was a pleasure to burn. It was a special pleasure to see things eaten, to see things blackened and changed." 0;
    mkDocument 22 "The human race, to which so many of my readers belong, has been playing at children's games from the beginning, and will probably do it till the end, which is a nuisance for the few people who grow up. And one of the games to which it is most attached is called 'Keep to-morrow dark,' and which is also sometimes called 'Cheat the Prophet.'" 0;
    mkDocument 23 "Happy families are all alike; every unhappy family is unhappy in its own way." 0;
    mkDocument 24 "I am an invisible man. No, I am not a spook like those who haunted Edgar Allan Poe; nor am I one of your Hollywood-movie ectoplasms. I am a man of substance, of flesh and bone, fiber and liquids—and I might even be said to possess a mind. I am invisible, understand, simply because people refuse to see me." 0;
    mkDocument 25 "It was a dark and stormy night; the rain fell in torrents, except at occasional intervals, when it was checked by a violent gust of wind which swept up the streets (for it is in London that our scene lies), rattling along the housetops, and fiercely agitating the scanty flame of the lamps that struggled against the darkness." 0;
    mkDocument 26 "The sky above the port was the color of television, tuned to a dead channel." 0;
    mkDocument 27 "All children, except one, grow up. They soon know that they will grow up, and the way Wendy knew was this. One day when she was two years old she was playing in a garden, and she plucked another flower and ran with it to her mother. I suppose she must have looked rather delightful, for Mrs. Darling put her hand to her heart and cried, 'Oh, why can't you remain like this for ever!' This was all that passed between them on the subject, but henceforth Wendy knew that she must grow up. You always know after you are two. Two is the beginning of the end." 0;
    mkDocument 28 "As Gregor Samsa awoke one morning from uneasy dreams he found himself transformed in his bed into a gigantic insect." 0;
    mkDocument 29 "Call me Ishmael. Some years ago—never mind how long precisely—having little or no money in my purse, and nothing particular to interest me on shore, I thought I would sail about a little and see the watery part of the world." 0;
    mkDocument 30 "It was the day my grandmother exploded." 0
  ].

(** ** Scoring and search (main.go, lines 44-96) *)

(** [scores[docID] += x]: a key that is missing reads as the zero value. *)
Definition add_score (scores : gmap Z float) (docID : Z) (x : float) : gmap Z float :=
  <[docID := (default 0 (scores !! docID) + x)%float]> scores.

(** The inner loop of insertion sort, [for j := i; j > a && less(j, j-1); j--
    { swap(j, j-1) }]: [x] moves left past each neighbour it is less than.
    [before] is the sorted prefix, nearest neighbour first. *)
Fixpoint sift {A} (less : A → A → bool) (x : A) (before : list A) : list A :=
  match before with
  | [] => [x]
  | y :: before' => if less x y then y :: sift less x before' else x :: before
  end.

(** The order kept in the sorted prefix, nearest neighbour first: [x] does
    not move past [y]. *)
Definition settled_before {A} (less : A → A → bool) (x y : A) : Prop :=
  less x y = false.

Definition insertionSort {A} (less : A → A → bool) (data : list A) : list A :=
  reverse (foldl (λ before x, sift less x before) [] data).

(** [sort.Slice(x, less)].  Go's library sorts short slices by insertion and
    longer ones by a quicksort variant, and leaves the order of elements
    that compare equal open; the model sorts by insertion at every length. *)
Definition sort_Slice {A} (less : A → A → bool) (x : list A) : list A :=
  insertionSort less x.

Section Scoring.

(** [math.Log]. *)
Variable Log : float → float.

(** [for k, v := range m] over a map: Go leaves the order of the entries
    open, so the order is a parameter; the statements about [Search] take
    any enumeration of the map's entries (a permutation of
    [map_to_list]). *)
Variable range_map : gmap Z float → list (Z * float).

(** *** CalculateTFIDFScore (lines 44-58) *)

(** [for _, docID := range docSet { ... }] *)
Fixpoint tfidf_docSet (se : SearchEngine) (token : string) (idf : float)
    (docSet : list Z) (scores : gmap Z float) : option (gmap Z float) :=
  match docSet with
  | [] => Some scores
  | docID :: docSet' =>
      doc ← at_index (documents se) docID;
      let tf := float64 (strings.Count (strings.ToLower (Content doc)) token) in
      tfidf_docSet se token idf docSet' (add_score scores docID (tf * idf)%float)
  end.

(** [for _, token := range tokens { if docSet, ok := se.index[token]; ok { ... } }] *)
Fixpoint tfidf_tokens (se : SearchEngine) (tokens : list string)
    (scores : gmap Z float) : option (gmap Z float) :=
  match tokens with
  | [] => Some scores
  | token :: tokens' =>
      match index se !! token with
      | Some docSet =>
          let idf :=
            Log (float64 (len (documents se)) / float64 (len docSet))%float in
          scores' ← tfidf_docSet se token idf docSet scores;
          tfidf_tokens se tokens' scores'
      | None => tfidf_tokens se tokens' scores
      end
  end.

Definition CalculateTFIDFScore (se : SearchEngine) (tokens : list string)
  : option (gmap Z float) :=
  tfidf_tokens se tokens ∅.

(** *** CalculateBM25Score (lines 60-77) *)

(** The three reads of [se.documents[docID]] in the loop body are one
    lookup: nothing writes to the slice in between. *)
Fixpoint bm25_docSet (se : SearchEngine) (token : string) (idf : float)
    (docSet : list Z) (scores : gmap Z float) : option (gmap Z float) :=
  match docSet with
  | [] => Some scores
  | docID :: docSet' =>
      doc ← at_index (documents se) docID;
      let tf := float64 (strings.Count (strings.ToLower (Content doc)) token) in
      let dl := float64 (len (strings.Fields (strings.ToLower (Content doc)))) in
      let numerator :=
        ((k1 se + 1) * tf * (k1 se + 1)
         / (tf + k1 se * (1.0 - k2 se + k2 se * dl / avgDocLength se)))%float in
      let denominator :=
        (tf + k1 se * (1.0 - k2 se + k2 se * dl / avgDocLength se))%float in
      bm25_docSet se token idf docSet'
        (add_score scores docID (idf * numerator / denominator)%float)
  end.

Fixpoint bm25_tokens (se : SearchEngine) (tokens : list string)
    (scores : gmap Z float) : option (gmap Z float) :=
  match tokens with
  | [] => Some scores
  | token :: tokens' =>
      match index se !! token with
      | Some docSet =>
          let idf :=
            (Log (float64 (len (documents se) - len docSet) + 0.5)
             / (float64 (len docSet) + 0.5))%float in
          scores' ← bm25_docSet se token idf docSet scores;
          bm25_tokens se tokens' scores'
      | None => bm25_tokens se tokens' scores
      end
  end.

Definition CalculateBM25Score (se : SearchEngine) (tokens : list string)
  : option (gmap Z float) :=
  bm25_tokens se tokens ∅.

(** *** Search (lines 79-96) *)

(** [for docID, score := range scores { results = append(results, ...) }] *)
Fixpoint Search_results (se : SearchEngine) (entries : list (Z * float))
    (results : list Document) : option (list Document) :=
  match entries with
  | [] => Some results
  | (docID, score) :: entries' =>
      doc ← at_index (documents se) docID;
      Search_results se entries'
        (results ++ [mkDocument docID (Content doc) score])%list
  end.

Definition Search (se : SearchEngine) (query : string) : option (list Document) :=
  let tokens := strings.Fields (strings.ToLower query) in
  scores ← CalculateTFIDFScore se tokens;
  results ← Search_results se (range_map scores) [];
  let results :=
    sort_Slice (λ a b, (Score b <? Score a)%float) results in
  Some (if 10 <? len results then take 10 results else results).


(** *** The scores, document by document

    What the two loops leave under one key of the score map, read off the
    posting lists: these definitions are the statements' vocabulary. *)

(** The content of document [d] ([""] where [d] is no valid index). *)
Definition content_of (se : SearchEngine) (d : Z) : string :=
  default "" (Content <$> at_index (documents se) d).

(** The summand [tf * idf] of line 52 for token [t] and document [d]. *)
Definition tfidf_term (se : SearchEngine) (t : string) (d : Z) : float :=
  let docSet := default [] (index se !! t) in
  let idf := Log (float64 (len (documents se)) / float64 (len docSet))%float in
  let tf := float64 (strings.Count (strings.ToLower (content_of se d)) t) in
  (tf * idf)%float.

(** The summand of line 71 for token [t] and document [d], in the
    vocabulary of the specification: [idf], [tf], [dl] and [norm]. *)
Definition bm25_term (se : SearchEngine) (t : string) (d : Z) : float :=
  let docSet := default [] (index se !! t) in
  let idf :=
    (Log (float64 (len (documents se) - len docSet) + 0.5)
     / (float64 (len docSet) + 0.5))%float in
  let tf := float64 (strings.Count (strings.ToLower (content_of se d)) t) in
  let dl := float64 (len (strings.Fields (strings.ToLower (content_of se d)))) in
  let norm := (1 - k2 se + k2 se * dl / avgDocLength se)%float in
  (idf * ((k1 se + 1) * tf * (k1 se + 1) / (tf + k1 se * norm))
   / (tf + k1 se * norm))%float.

(** The summands added under key [d], in the order the loops add them: one
    for each query token found in the index and each entry [d] of its
    posting list. *)
Definition contributions (term : SearchEngine → string → Z → float)
    (se : SearchEngine) (tokens : list string) (d : Z) : list float :=
  tokens ≫= λ t,
    match index se !! t with
    | Some docSet => (λ _, term se t d) <$> filter (λ docID, docID = d) docSet
    | None => []
    end.

(** The TF-IDF score as the specification words it: the posting list of a
    token read as the set of documents containing it. *)
Definition spec_postings (se : SearchEngine) (t : string) : gset Z :=
  list_to_set (default [] (index se !! t)).

Definition spec_tfidf_term (se : SearchEngine) (t : string) (d : Z) : float :=
  let idf :=
    Log (float64 (len (documents se))
         / float64 (Z.of_nat (size (spec_postings se t))))%float in
  let tf := float64 (strings.Count (strings.ToLower (content_of se d)) t) in
  (tf * idf)%float.

Definition spec_tfidf_step (se : SearchEngine) (d : Z) (score : float)
    (t : string) : float :=
  if decide (d ∈ spec_postings se t)
  then (score + spec_tfidf_term se t d)%float
  else score.

(** The sum over the query tokens [t] with [d] in [postings(t)]. *)
Definition spec_tfidf_score (se : SearchEngine) (tokens : list string) (d : Z)
  : float :=
  foldl (spec_tfidf_step se d) 0%float tokens.

End Scoring.

(** The shape the two scoring loops share: for each token found in the
    index, for each id of its posting list, look the document up and add a
    summand (a function of the posting list, the token and the document's
    content) to the id's score. *)
Fixpoint range_docSet (se : SearchEngine) (summand : string → float)
    (docSet : list Z) (scores : gmap Z float) : option (gmap Z float) :=
  match docSet with
  | [] => Some scores
  | docID :: docSet' =>
      doc ← at_index (documents se) docID;
      range_docSet se summand docSet' (add_score scores docID (summand (Content doc)))
  end.

Fixpoint range_tokens (se : SearchEngine)
    (summand : list Z → string → string → float)
    (tokens : list string) (scores : gmap Z float) : option (gmap Z float) :=
  match tokens with
  | [] => Some scores
  | token :: tokens' =>
      match index se !! token with
      | Some docSet =>
          scores' ← range_docSet se (summand docSet token) docSet scores;
          range_tokens se summand tokens' scores'
      | None => range_tokens se summand tokens' scores
      end
  end.

(** [scores[d] += x] for each [x] of [xs] in turn, seen from key [d]. *)
Definition accumulate (o : option float) (xs : list float) : option float :=
  foldl (λ o x, Some (default 0 o + x)%float) o xs.

(** ** The index, term by term *)

(** The ids appended to the posting list of [t] while [doc] is indexed: one
    per occurrence of [t] among the tokens of [doc]. *)
Definition doc_postings (t : string) (doc : Document) : list Z :=
  (λ _, ID doc) <$>
    filter (λ token, token = t) (strings.Fields (strings.ToLower (Content doc))).

Definition postings_of (documents : list Document) (t : string) : list Z :=
  documents ≫= doc_postings t.

(** [append] onto a map entry that may be missing. *)
Definition extend (o : option (list Z)) (ids : list Z) : option (list Z) :=
  match ids with
  | [] => o
  | _ => Some (default [] o ++ ids)%list
  end.

(** Every id of every posting list is a valid index into [documents]. *)
Definition postings_in_range (se : SearchEngine) : Prop :=
  ∀ t docSet docID,
    index se !! t = Some docSet → docID ∈ docSet →
    0 ≤ docID < len (documents se).

(** Each document sits at the position equal to its [ID]. *)
Definition dense (documents : list Document) : Prop :=
  ∀ i doc, documents !! i = Some doc → ID doc = Z.of_nat i.

(** ** Vocabulary of the specification *)

(** A query without a token: every byte is ASCII white space. *)
Fixpoint whitespace_only (s : string) : bool :=
  match s with
  | EmptyString => true
  | String c s' => strings.asciiSpace c && whitespace_only s'
  end.





(** The number of tokens of [content] that are exactly [term]. *)
Definition token_count (term content : string) : Z :=
  len (filter (λ token, token = term) (strings.Fields (strings.ToLower content))).

(** A document's length as the specification has it: its token count. *)
Definition documentLength (doc : Document) : Z :=
  len (strings.Fields (strings.ToLower (Content doc))).

(** The mean of the document lengths, summed in corpus order. *)
Definition spec_averageDocumentLength (documents : list Document) : float :=
  (foldl (λ total doc, (total + float64 (documentLength doc))%float) 0%float documents
   / float64 (len documents))%float.

(** Result sequences in descending order of score: no entry is followed by
    one that scores higher, and a pair of numbers is in [>=] order. *)
Definition descending (results : list Document) : Prop :=
  ∀ i a b,
    results !! i = Some a → results !! S i = Some b →
    (Score a <? Score b)%float = false ∧
    (PrimFloat.is_nan (Score a) = false → PrimFloat.is_nan (Score b) = false →
     (Score b <=? Score a)%float = true).

(** ** Sample corpora *)

(** A term twice in one document. *)
Definition twice_documents : list Document :=
  [mkDocument 0 "a a" 0; mkDocument 1 "b" 0].

(** The scenario of the specification. *)
Definition fox_documents : list Document :=
  [mkDocument 0 "the quick brown fox" 0; mkDocument 1 "the lazy dog" 0].

(** A stand-in for [math.Log] where a statement is run on a sample input:
    the first-order expansion of the logarithm at 1. *)
Definition Log_near_1 (x : float) : float := (x - 1)%float.

(** ** The query loop of [main] (lines 140-152) *)

(** What one round hands to [fmt.Printf]: the number of results, the
    query, and the content and score of each result in order. *)
Record Answer := mkAnswer {
  answer_count : Z;
  answer_query : string;
  answer_lines : list (string * float)
}.

(** How the loop ends: at the [break], or in the panic of an index out of
    range inside [Search]. *)
Inductive Outcome := Returned | Panicked.

(** [reads] are the strings that the successive calls of [ReadString]
    return (the error is dropped); once the input is used up a read returns
    the empty string.  Go draws the order of a map range anew each time:
    [range_of_round n] is the order in the call of [Search] of round [n],
    and [round] counts the rounds done.  The loop yields the answers
    printed, in order, and how it ended. *)
Fixpoint main_loop (Log : float → float)
    (range_of_round : nat → gmap Z float → list (Z * float))
    (searchEngine : SearchEngine) (round : nat) (reads : list string)
  : list Answer * Outcome :=
  match reads with
  | [] => ([], Returned)
  | line :: reads' =>
      let query := strings.TrimSpace line in
      match query with
      | EmptyString => ([], Returned)
      | _ =>
          match Search Log (range_of_round round) searchEngine query with
          | None => ([], Panicked)
          | Some results =>
              let '(answers, outcome) :=
                main_loop Log range_of_round searchEngine (S round) reads' in
              (mkAnswer (len results) query
                 ((λ result, (Content result, Score result)) <$> results)
                 :: answers,
               outcome)
          end
      end
  end.

(** ** Counting over the corpus *)

(** The number of tokens equal to [t] in all documents together. *)
Definition corpus_token_count (t : string) (documents : list Document) : Z :=
  foldr (λ doc n, token_count t (Content doc) + n) 0 documents.

(** The ids of a query's candidates: the documents in the posting list of
    a query token. *)
Definition candidate (se : SearchEngine) (tokens : list string) (d : Z) : Prop :=
  ∃ t docSet, t ∈ tokens ∧ index se !! t = Some docSet ∧ d ∈ docSet.

(** The posting lists that a query reads hold valid indices only. *)
Definition query_in_range (se : SearchEngine) (tokens : list string) : Prop :=
  ∀ t docSet docID,
    t ∈ tokens → index se !! t = Some docSet → docID ∈ docSet →
    0 ≤ docID < len (documents se).

(** Every byte of [s] passes the test [P]. *)
Fixpoint all_bytes (P : ascii → bool) (s : string) : bool :=
  match s with
  | EmptyString => true
  | String c s' => P c && all_bytes P s'
  end.

(** A sample of range orders that differ from round to round: ascending
    keys in even rounds, descending keys in odd ones. *)
Definition alternating_range (n : nat) (scores : gmap Z float)
  : list (Z * float) :=
  if Nat.even n then map_to_list scores else reverse (map_to_list scores).

(** ** ASCII text *)

(** The library models are Go's functions on ASCII text; statements that
    rest on what the models compute are made about such text. *)
Definition ascii_byte (c : ascii) : bool := (nat_of_ascii c <? 128)%nat.

Definition ascii_text (s : string) : bool := all_bytes ascii_byte s.





(** ** The summands with the term frequency of the specification *)



(** An engine with a capital letter in an index key; [BuildInvertedIndex]
    builds no such index. *)
Definition capital_engine : SearchEngine :=
  {| index := {["Cat" := [0]]};
     documents := [mkDocument 0 "Cat" 0];
     avgDocLength := 3%float;
     k1 := 1.2%float;
     k2 := 0.75%float |}.

(** ** The BM25 score as the specification words it *)

(** The summand of the specification for token [t] and document [d]:
    [|postings(t)|] is the number of distinct documents in the posting
    list of [t]. *)
Definition spec_bm25_term (Log : float → float) (se : SearchEngine)
    (t : string) (d : Z) : float :=
  let n := Z.of_nat (size (spec_postings se t)) in
  let idf :=
    (Log (float64 (len (documents se) - n) + 0.5) / (float64 n + 0.5))%float in
  let tf := float64 (strings.Count (strings.ToLower (content_of se d)) t) in
  let dl := float64 (len (strings.Fields (strings.ToLower (content_of se d)))) in
  let norm := (1 - k2 se + k2 se * dl / avgDocLength se)%float in
  (idf * ((k1 se + 1) * tf * (k1 se + 1) / (tf + k1 se * norm))
   / (tf + k1 se * norm))%float.

Definition spec_bm25_step (Log : float → float) (se : SearchEngine) (d : Z)
    (score : float) (t : string) : float :=
  if decide (d ∈ spec_postings se t)
  then (score + spec_bm25_term Log se t d)%float
  else score.

(** One summand for each query token [t] and each document [d] of
    [postings(t)]. *)
Definition spec_bm25_score (Log : float → float) (se : SearchEngine)
    (tokens : list string) (d : Z) : float :=
  foldl (spec_bm25_step Log se d) 0%float tokens.

(** * Properties *)

(** ** Strings *)

Section StringFacts.

Import strings.

Lemma lower_byte_idem c : lower_byte (lower_byte c) = lower_byte c.
Proof.
  destruct c as [[] [] [] [] [] [] [] []]; reflexivity.
Qed.

Lemma ToLower_idem s : ToLower (ToLower s) = ToLower s.
Proof.
  induction s as [|c s IH]; simpl; [reflexivity|].
  by rewrite lower_byte_idem, IH.
Qed.



Lemma drop_bytes_length n s :
  String.length (drop_bytes n s) = (String.length s - n)%nat.
Proof.
  revert s; induction n as [|n IH]; intros [|c s]; simpl; auto with lia.
Qed.




Lemma prefix_length s1 s2 :
  String.prefix s1 s2 = true → (String.length s1 ≤ String.length s2)%nat.
Proof.
  revert s2; induction s1 as [|a s1 IH]; intros [|b s2]; simpl;
    try done; try lia.
  destruct (ascii_dec a b); [|done].
  intros H. apply IH in H. lia.
Qed.

(** An instance found lies within the string. *)
Lemma Index_bound s substr i :
  Index s substr = Some i →
  (i + String.length substr ≤ String.length s)%nat.
Proof.
  revert i; induction s as [|c s IH]; intros i; cbn [Index String.length].
  - destruct (String.prefix substr "") eqn:E; [|done].
    intros [= <-]. by apply prefix_length in E.
  - destruct (String.prefix substr (String c s)) eqn:E.
    + intros [= <-]. by apply prefix_length in E.
    + destruct (Index s substr) as [j|]; simpl; [|done].
      intros [= <-]. specialize (IH j eq_refl). lia.
Qed.





Lemma Count_loop_fuel substr :
  substr ≠ "" →
  ∀ fuel fuel' s,
    (String.length s < fuel)%nat → (String.length s < fuel')%nat →
    Count_loop fuel s substr = Count_loop fuel' s substr.
Proof.
  intros Hne. induction fuel as [|fuel IH]; intros [|fuel'] s H H'; try lia.
  cbn [Count_loop].
  destruct (Index s substr) as [i|] eqn:Ei; [|done].
  f_equal. apply Index_bound in Ei.
  apply IH; rewrite drop_bytes_length;
    (destruct substr; [done|]); simpl in *; lia.
Qed.

(** An instance is found exactly where the string has one. *)
Lemma prefix_app substr s :
  String.prefix substr s = true ↔ ∃ post, s = (substr ++ post)%string.
Proof.
  revert s; induction substr as [|a substr IH]; intros s.
  - split; [intros _; by exists s|]. by destruct s.
  - destruct s as [|b s]; simpl.
    + split; [done|]. by intros [post [=]].
    + destruct (ascii_dec a b) as [->|Hne].
      * rewrite IH. split; intros [post H]; exists post.
        -- by rewrite H.
        -- by injection H.
      * split; [done|]. intros [post H]. by injection H.
Qed.

Lemma Index_is_Some s substr :
  is_Some (Index s substr) ↔ ∃ pre post, s = (pre ++ substr ++ post)%string.
Proof.
  split.
  - induction s as [|c s IH]; cbn [Index].
    + destruct (String.prefix substr "") eqn:E; [|by intros [? ?]].
      intros _. apply prefix_app in E as [post ->]. by exists "", post.
    + destruct (String.prefix substr (String c s)) eqn:E.
      * intros _. apply prefix_app in E as [post ->]. by exists "", post.
      * destruct (Index s substr); [|by intros [? ?]].
        intros _. destruct IH as (pre & post & ->); [by eexists|].
        by exists (String c pre), post.
  - intros (pre & post & ->). induction pre as [|c pre IH].
    + assert (E : String.prefix substr ("" ++ substr ++ post) = true)
        by (apply prefix_app; by exists post).
      destruct (substr ++ post)%string eqn:E'; simpl in *; rewrite E; by eexists.
    + change (is_Some (Index (String c (pre ++ substr ++ post)%string) substr)).
      cbn [Index].
      match goal with
      | |- context [String.prefix ?a ?b] => destruct (String.prefix a b)
      end; [by eexists|].
      destruct IH as [i ->]. by eexists.
Qed.

Lemma Count_loop_nonneg fuel s substr : 0 ≤ Count_loop fuel s substr.
Proof.
  revert s; induction fuel as [|fuel IH]; intros s; simpl; [done|].
  destruct (Index s substr); [|done]. specialize (IH (drop_bytes (n + String.length substr) s)). lia.
Qed.

Lemma Count_positive s substr :
  substr ≠ "" →
  0 < Count s substr ↔ ∃ pre post, s = (pre ++ substr ++ post)%string.
Proof.
  intros Hne. rewrite <- Index_is_Some. unfold Count.
  destruct substr as [|a substr'] eqn:E; [done|]. rewrite <- E. clear E.
  cbn [Count_loop]. destruct (Index s substr) as [i|].
  - pose proof (Count_loop_nonneg (String.length s)
                  (drop_bytes (i + String.length substr) s) substr).
    split; [by eexists|lia].
  - split; [lia|]. by intros [? ?].
Qed.


(** A term inside a longer word is counted, where no token equals it. *)
Example termFrequency_substring :
  Count (ToLower "Category theory") "cat" = 1 ∧
  token_count "cat" "Category theory" = 0.
Proof. split; reflexivity. Qed.

(** Occurrences do not overlap. *)
Example termFrequency_no_overlap : Count (ToLower "aaa") "aa" = 1.
Proof. reflexivity. Qed.

End StringFacts.

(** ** The inverted index *)

Section IndexFacts.

Implicit Types (m : gmap string (list Z)) (t token : string).

Lemma extend_app o ids1 ids2 :
  extend (extend o ids1) ids2 = extend o (ids1 ++ ids2).
Proof.
  destruct ids1 as [|x ids1]; [done|].
  destruct ids2 as [|y ids2]; simpl.
  - by rewrite app_nil_r.
  - by rewrite <- app_assoc.
Qed.

Lemma index_token_lookup docID m token t :
  index_token docID m token !! t =
    if decide (token = t) then Some (default [] (m !! t) ++ [docID])
    else m !! t.
Proof.
  unfold index_token. case_decide as E.
  - subst t. rewrite lookup_insert_eq.
    destruct (m !! token) eqn:Em; [by rewrite Em|]. by rewrite lookup_insert_eq.
  - rewrite lookup_insert_ne by done.
    destruct (m !! token) eqn:Em; [done|]. by rewrite lookup_insert_ne.
Qed.

Lemma index_tokens_lookup docID tokens m t :
  foldl (index_token docID) m tokens !! t =
    extend (m !! t) ((λ _, docID) <$> filter (λ token, token = t) tokens).
Proof.
  revert m; induction tokens as [|token tokens IH]; intros m; [done|].
  cbn [foldl]. rewrite IH, index_token_lookup, filter_cons.
  case_decide as E; [|done].
  change (extend (Some (default [] (m !! t) ++ [docID])) ?l)
    with (extend (extend (m !! t) [docID]) l).
  by rewrite extend_app.
Qed.

Lemma index_document_lookup m doc t :
  index_document m doc !! t = extend (m !! t) (doc_postings t doc).
Proof. apply index_tokens_lookup. Qed.

Lemma index_documents_lookup documents m t :
  foldl index_document m documents !! t = extend (m !! t) (postings_of documents t).
Proof.
  revert m; induction documents as [|doc documents IH]; intros m; [done|].
  cbn [foldl]. rewrite IH, index_document_lookup, extend_app. done.
Qed.

(** The posting list of a term, read off the corpus. *)
Lemma BuildInvertedIndex_lookup documents t :
  BuildInvertedIndex documents !! t = extend None (postings_of documents t).
Proof.
  unfold BuildInvertedIndex. by rewrite index_documents_lookup, lookup_empty.
Qed.

Lemma elem_of_doc_postings docID t doc :
  docID ∈ doc_postings t doc ↔
  docID = ID doc ∧ t ∈ strings.Fields (strings.ToLower (Content doc)).
Proof.
  unfold doc_postings. rewrite list_elem_of_fmap. split.
  - intros (token & -> & H). apply list_elem_of_filter in H as [-> H]. done.
  - intros [-> H]. exists t. split; [done|]. by apply list_elem_of_filter.
Qed.

Lemma elem_of_postings_of docID documents t :
  docID ∈ postings_of documents t ↔
  ∃ doc, doc ∈ documents ∧ ID doc = docID ∧
         t ∈ strings.Fields (strings.ToLower (Content doc)).
Proof.
  unfold postings_of. rewrite list_elem_of_bind. split.
  - intros (doc & H & Hdoc). apply elem_of_doc_postings in H as [-> H]. eauto.
  - intros (doc & Hdoc & <- & H). exists doc. by rewrite elem_of_doc_postings.
Qed.

Lemma extend_None_Some ids docSet :
  extend None ids = Some docSet ↔ ids ≠ [] ∧ docSet = ids.
Proof.
  destruct ids; simpl; split; try done; try (intros [? ?]; done).
  - intros [= <-]. done.
  - intros [_ ->]. done.
Qed.

(** The ids of a posting list are the ids of the documents that have the
    term among their tokens. *)
Lemma BuildInvertedIndex_elem_of documents t docSet docID :
  BuildInvertedIndex documents !! t = Some docSet →
  (docID ∈ docSet ↔
   ∃ doc, doc ∈ documents ∧ ID doc = docID ∧
          t ∈ strings.Fields (strings.ToLower (Content doc))).
Proof.
  rewrite BuildInvertedIndex_lookup, extend_None_Some. intros [_ ->].
  apply elem_of_postings_of.
Qed.

(** One entry per occurrence: a document with [n] tokens equal to [t] is
    [n] times in the posting list of [t]. *)
Lemma doc_postings_length t doc :
  len (doc_postings t doc) = token_count t (Content doc).
Proof. unfold doc_postings, token_count, len. by rewrite length_fmap. Qed.

(** *** C6 *)

(** C6. After [BuildInvertedIndex]: the id of every document [D] of the
    corpus is in the posting list of every term [T] among the tokens of
    [D]'s lower-cased content; and a term that is a token of no document
    has no entry in the index. *)
Theorem BuildInvertedIndex_postings (documents : list Document) (T : string) :
  (∀ D, D ∈ documents →
        T ∈ strings.Fields (strings.ToLower (Content D)) →
        ∃ docSet, BuildInvertedIndex documents !! T = Some docSet ∧
                  ID D ∈ docSet) ∧
  ((∀ D, D ∈ documents →
         T ∉ strings.Fields (strings.ToLower (Content D))) →
   BuildInvertedIndex documents !! T = None).
Proof.
  rewrite BuildInvertedIndex_lookup. split.
  - intros D HD HT.
    assert (Hin : ID D ∈ postings_of documents T)
      by (apply elem_of_postings_of; eauto).
    destruct (postings_of documents T) as [|x l] eqn:E.
    + by apply not_elem_of_nil in Hin.
    + eexists. split; [reflexivity|]. done.
  - intros Hno. destruct (postings_of documents T) as [|x l] eqn:E; [done|].
    assert (Hin : x ∈ postings_of documents T) by (rewrite E; left).
    apply elem_of_postings_of in Hin as (D & HD & _ & HT).
    by destruct (Hno D HD).
Qed.

Lemma BuildInvertedIndex_postings_witness :
  (∃ docSet, BuildInvertedIndex fox_documents !! "fox" = Some docSet ∧
             0 ∈ docSet) ∧
  BuildInvertedIndex fox_documents !! "cat" = None.
Proof.
  split.
  - apply (proj1 (BuildInvertedIndex_postings fox_documents "fox")
             (mkDocument 0 "the quick brown fox" 0)).
    + left.
    + vm_compute. do 3 right. left.
  - apply (proj2 (BuildInvertedIndex_postings fox_documents "cat")).
    apply Forall_forall. vm_compute.
    repeat constructor; intros H; repeat (inversion_clear H as [|? ? ? H']; rename H' into H).
Defined.

(** *** C2 *)

(** C2, at a corpus where the code departs from it: the loop of lines
    33-38 appends the id once per token, so a document in which a term
    occurs twice is twice in the term's posting list. *)
Theorem BuildInvertedIndex_duplicates :
  BuildInvertedIndex twice_documents !! "a" = Some [0; 0] ∧
  ¬ NoDup [0; 0].
Proof.
  split; [reflexivity|].
  intros H. apply NoDup_cons in H as [H _]. apply H. left.
Qed.

(** The same on the corpus of [main]: document 1 has the token "the"
    three times. *)
Example BuildInvertedIndex_main_the :
  ∃ docSet, BuildInvertedIndex main_documents !! "the" = Some docSet ∧
            filter (λ docID, docID = 1) docSet = [1; 1; 1].
Proof. eexists. split; [vm_compute; reflexivity|]. reflexivity. Qed.

(** *** Posting lists of a dense corpus *)

Lemma dense_postings_in_range (docs : list Document) :
  dense docs → postings_in_range (main_searchEngine docs).
Proof.
  intros Hdense t docSet docID Ht Hin.
  cbn [index documents main_searchEngine] in *.
  apply (BuildInvertedIndex_elem_of _ _ _ docID) in Ht.
  apply Ht in Hin as (doc & Hdoc & <- & _).
  apply list_elem_of_lookup in Hdoc as [i Hi].
  rewrite (Hdense i doc Hi). apply lookup_lt_Some in Hi.
  unfold len. lia.
Qed.

End IndexFacts.

(** ** Floating-point order *)

Section FloatFacts.

Lemma SFcompare_swap x y :
  SFcompare y x = CompOpp <$> SFcompare x y.
Proof.
  destruct x as [sx|sx| |sx mx ex], y as [sy|sy| |sy my ey]; simpl;
    try reflexivity; try (by destruct sx); try (by destruct sy);
    try (by destruct sx, sy).
  destruct sx, sy; try reflexivity;
    rewrite (Z.compare_antisym ex ey); destruct (ex ?= ey)%Z; simpl;
    try reflexivity; rewrite ?CompOpp_involutive.
  - f_equal. apply (BinPos.Pos.compare_cont_antisym my mx Eq).
  - f_equal. symmetry. apply (BinPos.Pos.compare_cont_antisym mx my Eq).
Qed.

(** [<] on floats is asymmetric, NaN included. *)
Lemma float_ltb_asym (a b : float) :
  (a <? b)%float = true → (b <? a)%float = false.
Proof.
  rewrite !FloatAxioms.ltb_spec. unfold SFltb.
  rewrite (SFcompare_swap (Prim2SF a) (Prim2SF b)).
  by destruct (SFcompare (Prim2SF a) (Prim2SF b)) as [[]|].
Qed.

(** Numbers are totally ordered. *)
Lemma float_not_ltb_leb (a b : float) :
  PrimFloat.is_nan a = false → PrimFloat.is_nan b = false →
  (a <? b)%float = false → (b <=? a)%float = true.
Proof.
  unfold PrimFloat.is_nan.
  rewrite !FloatAxioms.eqb_spec, FloatAxioms.ltb_spec, FloatAxioms.leb_spec.
  unfold SFeqb, SFltb, SFleb.
  rewrite (SFcompare_swap (Prim2SF a) (Prim2SF b)).
  destruct (Prim2SF a) as [sa|sa| |sa ma ea], (Prim2SF b) as [sb|sb| |sb mb eb];
    try done; intros _ _.
  all: match goal with
       | |- context [SFcompare ?x ?y] =>
           assert (∃ c, SFcompare x y = Some c) as [c ->] by (simpl; eauto)
       end; by destruct c.
Qed.

End FloatFacts.

(** ** Sorting *)

Section SortFacts.

Context {A : Type} (less : A → A → bool).
Hypothesis less_asym : ∀ a b, less a b = true → less b a = false.

Lemma sift_length x before : length (sift less x before) = S (length before).
Proof.
  induction before as [|y before IH]; simpl; [done|].
  destruct (less x y); simpl; congruence.
Qed.

Lemma sift_Permutation x before : sift less x before ≡ₚ x :: before.
Proof.
  induction before as [|y before IH]; simpl; [done|].
  destruct (less x y); [|done].
  rewrite IH. apply Permutation_swap.
Qed.

Lemma sift_HdRel y x before :
  less x y = true → HdRel (settled_before less) y before → HdRel (settled_before less) y (sift less x before).
Proof.
  intros Hxy Hhd. destruct before as [|z before]; simpl.
  - constructor. by apply less_asym.
  - destruct (less x z).
    + constructor. by inversion Hhd.
    + constructor. by apply less_asym.
Qed.

Lemma sift_Sorted x before :
  Sorted (settled_before less) before → Sorted (settled_before less) (sift less x before).
Proof.
  induction 1 as [|y before Hs IH Hhd]; simpl.
  - by repeat constructor.
  - destruct (less x y) eqn:Hxy.
    + constructor; [done|]. by apply sift_HdRel.
    + constructor; [by constructor|]. by constructor.
Qed.

Lemma insertion_Sorted data before :
  Sorted (settled_before less) before →
  Sorted (settled_before less) (foldl (λ before x, sift less x before) before data).
Proof.
  revert before; induction data as [|x data IH]; intros before Hs; [done|].
  apply IH. by apply sift_Sorted.
Qed.

Lemma insertion_length data before :
  length (foldl (λ before x, sift less x before) before data) =
    (length data + length before)%nat.
Proof.
  revert before; induction data as [|x data IH]; intros before; [done|].
  cbn [foldl]. rewrite IH, sift_length. simpl. lia.
Qed.

Lemma insertion_Permutation data before :
  foldl (λ before x, sift less x before) before data ≡ₚ data ++ before.
Proof.
  revert before; induction data as [|x data IH]; intros before; [done|].
  cbn [foldl]. rewrite IH, sift_Permutation. simpl.
  by rewrite Permutation_middle.
Qed.

Lemma Sorted_adjacent (R : A → A → Prop) l i a b :
  Sorted R l → l !! i = Some a → l !! S i = Some b → R a b.
Proof.
  intros Hs. revert i. induction Hs as [|x l Hs IH Hhd]; intros i; [done|].
  destruct i as [|i]; simpl.
  - intros [= ->] Hb. destruct Hhd as [|y l Hxy]; [done|].
    simpl in Hb. by injection Hb as ->.
  - apply IH.
Qed.

Lemma sort_Slice_length data : length (sort_Slice less data) = length data.
Proof.
  unfold sort_Slice, insertionSort.
  rewrite length_reverse, insertion_length. simpl. lia.
Qed.

Lemma sort_Slice_Permutation data : sort_Slice less data ≡ₚ data.
Proof.
  unfold sort_Slice, insertionSort.
  by rewrite reverse_Permutation, insertion_Permutation, app_nil_r.
Qed.

(** After the sort no element is followed by one that is less-than it
    in the sense of [less] turned around: [less b a] fails for each
    adjacent pair [(a, b)]. *)
Lemma sort_Slice_adjacent data i a b :
  sort_Slice less data !! i = Some a →
  sort_Slice less data !! S i = Some b →
  less b a = false.
Proof.
  unfold sort_Slice, insertionSort.
  set (l := foldl _ _ _).
  assert (Hs : Sorted (settled_before less) l) by (apply insertion_Sorted; constructor).
  intros Ha Hb.
  assert (Hi : (S i < length l)%nat).
  { apply lookup_lt_Some in Hb. by rewrite length_reverse in Hb. }
  rewrite reverse_lookup in Ha by lia.
  rewrite reverse_lookup in Hb by lia.
  replace (length l - S i)%nat with (S (length l - S (S i))) in Ha by lia.
  exact (Sorted_adjacent (settled_before less) l _ b a Hs Hb Ha).
Qed.

End SortFacts.

(** ** The scoring loops *)

Section LoopFacts.

Implicit Types (se : SearchEngine) (scores : gmap Z float) (d docID : Z).

Lemma accumulate_app o xs ys :
  accumulate o (xs ++ ys) = accumulate (accumulate o xs) ys.
Proof. apply foldl_app. Qed.

Lemma add_score_lookup scores docID x d :
  add_score scores docID x !! d =
    if decide (docID = d) then Some (default 0 (scores !! d) + x)%float
    else scores !! d.
Proof.
  unfold add_score. case_decide as E.
  - subst. by rewrite lookup_insert_eq.
  - by rewrite lookup_insert_ne.
Qed.

Lemma at_index_in_range (docs : list Document) d :
  0 ≤ d < len docs → is_Some (at_index docs d).
Proof.
  intros [H0 Hlt]. unfold at_index, len in *.
  destruct (Z.ltb_spec d 0) as [|_]; [lia|].
  apply lookup_lt_is_Some. lia.
Qed.

Lemma at_index_Some_range (docs : list Document) d doc :
  at_index docs d = Some doc → 0 ≤ d < len docs.
Proof.
  unfold at_index, len.
  destruct (Z.ltb_spec d 0) as [|H0]; [done|].
  intros H. apply lookup_lt_Some in H. lia.
Qed.

Lemma at_index_content se d doc :
  at_index (documents se) d = Some doc → content_of se d = Content doc.
Proof. unfold content_of. by intros ->. Qed.

(** One posting list. *)

Lemma range_docSet_lookup se summand docSet scores scores' d :
  range_docSet se summand docSet scores = Some scores' →
  scores' !! d =
    accumulate (scores !! d)
      ((λ _, summand (content_of se d)) <$> filter (λ docID, docID = d) docSet).
Proof.
  revert scores; induction docSet as [|docID docSet IH]; intros scores.
  - by intros [= ->].
  - cbn [range_docSet].
    destruct (at_index (documents se) docID) as [doc|] eqn:Hdoc; [|done].
    cbn [mbind option_bind]. intros H. rewrite (IH _ H).
    rewrite add_score_lookup, filter_cons.
    case_decide as E; [|done].
    subst d. by rewrite (at_index_content se docID doc Hdoc).
Qed.

Lemma range_docSet_total se summand docSet scores :
  (∀ docID, docID ∈ docSet → 0 ≤ docID < len (documents se)) →
  is_Some (range_docSet se summand docSet scores).
Proof.
  revert scores; induction docSet as [|docID docSet IH]; intros scores Hin.
  - by eexists.
  - cbn [range_docSet].
    destruct (at_index_in_range (documents se) docID) as [doc ->].
    { apply Hin. left. }
    cbn [mbind option_bind]. apply IH. intros d Hd. apply Hin. by right.
Qed.

Lemma range_docSet_keys se summand docSet scores scores' :
  range_docSet se summand docSet scores = Some scores' →
  (∀ d, is_Some (scores !! d) → is_Some (at_index (documents se) d)) →
  ∀ d, is_Some (scores' !! d) → is_Some (at_index (documents se) d).
Proof.
  revert scores; induction docSet as [|docID docSet IH]; intros scores.
  - by intros [= ->].
  - cbn [range_docSet].
    destruct (at_index (documents se) docID) as [doc|] eqn:Hdoc; [|done].
    cbn [mbind option_bind]. intros H Hkeys. apply (IH _ H).
    intros d. rewrite add_score_lookup. case_decide as E.
    + subst d. intros _. by eexists.
    + apply Hkeys.
Qed.

(** All query tokens. *)

Lemma range_tokens_lookup se summand tokens scores scores' d :
  range_tokens se summand tokens scores = Some scores' →
  scores' !! d =
    accumulate (scores !! d)
      (contributions
         (λ se t d, summand (default [] (index se !! t)) t (content_of se d))
         se tokens d).
Proof.
  revert scores; induction tokens as [|token tokens IH]; intros scores.
  - by intros [= ->].
  - cbn [range_tokens]. unfold contributions. rewrite bind_cons.
    fold (contributions
            (λ se t d, summand (default [] (index se !! t)) t (content_of se d))
            se tokens d).
    destruct (index se !! token) as [docSet|] eqn:Ht; cbn [default].
    + destruct (range_docSet se (summand docSet token) docSet scores)
        as [scores1|] eqn:H1; [|done].
      cbn [mbind option_bind]. intros H. rewrite (IH _ H), accumulate_app.
      by rewrite (range_docSet_lookup _ _ _ _ _ d H1).
    + intros H. by rewrite (IH _ H).
Qed.

Lemma range_tokens_total se summand tokens scores :
  postings_in_range se → is_Some (range_tokens se summand tokens scores).
Proof.
  intros Hrange.
  revert scores; induction tokens as [|token tokens IH]; intros scores.
  - by eexists.
  - cbn [range_tokens].
    destruct (index se !! token) as [docSet|] eqn:Ht; [|apply IH].
    destruct (range_docSet_total se (summand docSet token) docSet scores)
      as [scores1 ->].
    { intros docID Hin. by apply (Hrange token docSet). }
    apply IH.
Qed.

Lemma range_tokens_keys se summand tokens scores scores' :
  range_tokens se summand tokens scores = Some scores' →
  (∀ d, is_Some (scores !! d) → is_Some (at_index (documents se) d)) →
  ∀ d, is_Some (scores' !! d) → is_Some (at_index (documents se) d).
Proof.
  revert scores; induction tokens as [|token tokens IH]; intros scores.
  - by intros [= ->].
  - cbn [range_tokens].
    destruct (index se !! token) as [docSet|] eqn:Ht; [|apply IH].
    destruct (range_docSet se (summand docSet token) docSet scores)
      as [scores1|] eqn:H1; [|done].
    cbn [mbind option_bind]. intros H Hkeys. apply (IH _ H).
    by apply (range_docSet_keys _ _ _ _ _ H1).
Qed.

(** Tokens that the index does not know leave the scores as they are. *)
Lemma range_tokens_unknown se summand tokens scores :
  (∀ t, t ∈ tokens → index se !! t = None) →
  range_tokens se summand tokens scores = Some scores.
Proof.
  induction tokens as [|token tokens IH]; intros Hno; [done|].
  cbn [range_tokens]. rewrite (Hno token) by left.
  apply IH. intros t Ht. apply Hno. by right.
Qed.

End LoopFacts.

(** ** The two scorers *)

Section ScorerFacts.

Variable Log : float → float.

Implicit Types (se : SearchEngine) (scores : gmap Z float) (d docID : Z).

Lemma tfidf_docSet_range se token idf docSet scores :
  tfidf_docSet se token idf docSet scores =
    range_docSet se
      (λ content,
         (float64 (strings.Count (strings.ToLower content) token) * idf)%float)
      docSet scores.
Proof.
  revert scores; induction docSet as [|docID docSet IH]; intros scores; [done|].
  cbn [tfidf_docSet range_docSet].
  destruct (at_index (documents se) docID); [|done]. apply IH.
Qed.

Lemma tfidf_tokens_range se tokens scores :
  tfidf_tokens Log se tokens scores =
    range_tokens se
      (λ docSet token content,
         (float64 (strings.Count (strings.ToLower content) token)
          * Log (float64 (len (documents se)) / float64 (len docSet)))%float)
      tokens scores.
Proof.
  revert scores; induction tokens as [|token tokens IH]; intros scores; [done|].
  cbn [tfidf_tokens range_tokens].
  destruct (index se !! token) as [docSet|]; [|apply IH].
  rewrite tfidf_docSet_range.
  destruct (range_docSet _ _ _ _); [apply IH|done].
Qed.

Lemma bm25_docSet_range se token idf docSet scores :
  bm25_docSet se token idf docSet scores =
    range_docSet se
      (λ content,
         let tf := float64 (strings.Count (strings.ToLower content) token) in
         let dl := float64 (len (strings.Fields (strings.ToLower content))) in
         let norm := (1 - k2 se + k2 se * dl / avgDocLength se)%float in
         (idf * ((k1 se + 1) * tf * (k1 se + 1) / (tf + k1 se * norm))
          / (tf + k1 se * norm))%float)
      docSet scores.
Proof.
  revert scores; induction docSet as [|docID docSet IH]; intros scores; [done|].
  cbn [bm25_docSet range_docSet].
  destruct (at_index (documents se) docID); [|done]. apply IH.
Qed.

Lemma bm25_tokens_range se tokens scores :
  bm25_tokens Log se tokens scores =
    range_tokens se
      (λ docSet token content,
         let idf :=
           (Log (float64 (len (documents se) - len docSet) + 0.5)
            / (float64 (len docSet) + 0.5))%float in
         let tf := float64 (strings.Count (strings.ToLower content) token) in
         let dl := float64 (len (strings.Fields (strings.ToLower content))) in
         let norm := (1 - k2 se + k2 se * dl / avgDocLength se)%float in
         (idf * ((k1 se + 1) * tf * (k1 se + 1) / (tf + k1 se * norm))
          / (tf + k1 se * norm))%float)
      tokens scores.
Proof.
  revert scores; induction tokens as [|token tokens IH]; intros scores; [done|].
  cbn [bm25_tokens range_tokens].
  destruct (index se !! token) as [docSet|]; [|apply IH].
  rewrite bm25_docSet_range.
  destruct (range_docSet _ _ _ _); [apply IH|done].
Qed.

(** The TF-IDF scorer, key by key: it does not panic on an engine whose
    posting lists hold valid indices, and leaves under each document the
    summands [tf * idf] added up in loop order, one for each query token
    found in the index and each entry of the document in its posting
    list; a document with no such entry has no key. *)
Lemma CalculateTFIDFScore_terms se tokens :
  postings_in_range se →
  ∃ scores,
    CalculateTFIDFScore Log se tokens = Some scores ∧
    ∀ d, scores !! d =
           accumulate None (contributions (tfidf_term Log) se tokens d).
Proof.
  intros Hrange. unfold CalculateTFIDFScore.
  rewrite tfidf_tokens_range.
  destruct (range_tokens_total se
              (λ docSet token content,
                 (float64 (strings.Count (strings.ToLower content) token)
                  * Log (float64 (len (documents se)) / float64 (len docSet)))%float)
              tokens ∅ Hrange) as [scores Hs].
  exists scores. split; [done|]. intros d.
  by rewrite (range_tokens_lookup _ _ _ _ _ d Hs), lookup_empty.
Qed.

(** X18. For every engine and every list of query tokens, the score map
    that the BM25 scorer returns holds, under each document [d], the sum in
    loop order of one summand [bm25_term se t d] for each query token [t]
    found in the index and each entry of [d] in the posting list of [t]
    (repeated entries add repeatedly), and no key for a document without
    such an entry.  The summand is
    [idf * ((k1+1) * tf * (k1+1) / (tf + k1*norm)) / (tf + k1*norm)] with
    [idf = Log (N - len docSet + 0.5) / (len docSet + 0.5)] taken from the
    length of the list, [tf] the term frequency, [dl] the token count of
    the document and [norm = 1 - k2 + k2 * dl / avgDocLength]; products and
    quotients are grouped as lines 69-71 evaluate them.  The scorer returns
    on every engine whose posting lists hold valid indices, and the engine
    that [main] constructs has [k1 = 1.2] and [k2 = 0.75]. *)
Theorem CalculateBM25Score_terms (se : SearchEngine) (tokens : list string) :
  (postings_in_range se → is_Some (CalculateBM25Score Log se tokens)) ∧
  (∀ scores,
     CalculateBM25Score Log se tokens = Some scores →
     ∀ d, scores !! d =
            accumulate None (contributions (bm25_term Log) se tokens d)) ∧
  (∀ docs, k1 (main_searchEngine docs) = 1.2%float ∧
           k2 (main_searchEngine docs) = 0.75%float).
Proof.
  unfold CalculateBM25Score. rewrite bm25_tokens_range.
  split; [|split; [|done]].
  - apply range_tokens_total.
  - intros scores Hs d.
    by rewrite (range_tokens_lookup _ _ _ _ _ d Hs), lookup_empty.
Qed.

(** *** C4 *)

(** C4, at an engine where the code departs from it.  In the corpus
    ["a a"], ["b"] the posting list of "a" is [[0; 0]]: the scorer takes
    [len docSet = 2] for [|postings|], so [idf = Log (2 - 2 + 0.5) / (2 + 0.5)],
    and adds the summand under document 0 twice, where the specification,
    with one document containing "a", has
    [idf = Log (2 - 1 + 0.5) / (1 + 0.5)] and the summand once.  ([tf = 2],
    [dl = 2] and [avgDocLength = 2], the byte mean, on both sides.) *)
Theorem CalculateBM25Score_twice :
  ∃ scores,
    CalculateBM25Score Log (main_searchEngine twice_documents) ["a"] = Some scores ∧
    scores !! 0 =
      Some (let b := 2 + 1.2 * (1 - 0.75 + 0.75 * 2 / 2) in
            let n := (1.2 + 1) * 2 * (1.2 + 1) / b in
            0 + Log 0.5 / 2.5 * n / b + Log 0.5 / 2.5 * n / b)%float ∧
    spec_bm25_score Log (main_searchEngine twice_documents) ["a"] 0 =
      (let b := 2 + 1.2 * (1 - 0.75 + 0.75 * 2 / 2) in
       let n := (1.2 + 1) * 2 * (1.2 + 1) / b in
       0 + Log 1.5 / 1.5 * n / b)%float.
Proof.
  eexists. split; [vm_compute; reflexivity|].
  split; vm_compute; reflexivity.
Qed.

(** The same on the corpus of [main]: the posting list of "the" has 69
    entries for 21 documents out of 31, so the scorer takes the logarithm
    of [31 - 69 + 0.5], a negative number. *)
Example CalculateBM25Score_main_the :
  ∃ docSet,
    BuildInvertedIndex main_documents !! "the" = Some docSet ∧
    len main_documents = 31 ∧ len docSet = 69 ∧
    size (list_to_set (C := gset Z) docSet) = 21%nat ∧
    (float64 (len main_documents - len docSet) + 0.5)%float = (-37.5)%float.
Proof.
  eexists. split; [vm_compute; reflexivity|].
  repeat split; vm_compute; reflexivity.
Qed.

End ScorerFacts.

(** ** TF-IDF against the specification's formula *)

Section TfidfFacts.

Variable Log : float → float.

Implicit Types (se : SearchEngine) (d : Z).

Lemma filter_eq_NoDup (l : list Z) d :
  NoDup l → filter (λ x, x = d) l = if decide (d ∈ l) then [d] else [].
Proof.
  induction 1 as [|x l Hx Hnd IH]; [done|].
  rewrite filter_cons, IH. destruct (decide (x = d)) as [->|Hne].
  - rewrite decide_False by done. rewrite decide_True by left. done.
  - destruct (decide (d ∈ l)) as [Hin|Hin].
    + rewrite decide_True by (by right). done.
    + rewrite decide_False; [done|].
      intros [?|?]%elem_of_cons; [by subst|done].
Qed.

(** Where no posting list repeats an id, a query token adds to the score
    of [d] what the specification's sum has for it. *)
Lemma tfidf_token_NoDup se t d :
  (∀ t docSet, index se !! t = Some docSet → NoDup docSet) →
  match index se !! t with
  | Some docSet =>
      (λ _, tfidf_term Log se t d) <$> filter (λ docID, docID = d) docSet
  | None => []
  end = if decide (d ∈ spec_postings se t) then [spec_tfidf_term Log se t d]
        else [].
Proof.
  intros Hnd. unfold spec_tfidf_term, tfidf_term, spec_postings.
  destruct (index se !! t) as [docSet|] eqn:Ht; cbn [default].
  - rewrite (filter_eq_NoDup docSet d (Hnd t docSet Ht)).
    destruct (decide (d ∈ docSet)) as [Hin|Hin].
    + rewrite decide_True by (by apply elem_of_list_to_set).
      rewrite size_list_to_set by eauto. done.
    + rewrite decide_False; [done|]. by rewrite elem_of_list_to_set.
  - rewrite decide_False; [done|]. set_solver.
Qed.

Lemma contributions_cons term se t tokens d :
  contributions term se (t :: tokens) d =
    match index se !! t with
    | Some docSet => (λ _, term se t d) <$> filter (λ docID, docID = d) docSet
    | None => []
    end ++ contributions term se tokens d.
Proof. done. Qed.

Lemma tfidf_NoDup_from se tokens d x :
  (∀ t docSet, index se !! t = Some docSet → NoDup docSet) →
  accumulate (Some x) (contributions (tfidf_term Log) se tokens d) =
    Some (foldl (spec_tfidf_step Log se d) x tokens).
Proof.
  intros Hnd. revert x; induction tokens as [|t tokens IH]; intros x; [done|].
  rewrite contributions_cons, accumulate_app, (tfidf_token_NoDup se t d Hnd).
  cbn [foldl]. unfold spec_tfidf_step at 2.
  destruct (decide (d ∈ spec_postings se t)); apply IH.
Qed.

(** X11. The TF-IDF scorer on an engine whose posting lists are sets: the
    score map has the specification's sum under each document that is in
    the posting list of a query token, and no other key. *)
Lemma CalculateTFIDFScore_NoDup se tokens :
  postings_in_range se →
  (∀ t docSet, index se !! t = Some docSet → NoDup docSet) →
  ∃ scores,
    CalculateTFIDFScore Log se tokens = Some scores ∧
    ∀ d, scores !! d =
           if decide (Exists (λ t, d ∈ spec_postings se t) tokens)
           then Some (spec_tfidf_score Log se tokens d)
           else None.
Proof.
  intros Hrange Hnd.
  destruct (CalculateTFIDFScore_terms Log se tokens Hrange) as (scores & Hs & Hl).
  exists scores. split; [done|]. intros d. rewrite Hl. clear Hs Hl.
  unfold spec_tfidf_score.
  induction tokens as [|t tokens IH].
  - rewrite decide_False; [done|]. by intros ?%Exists_nil.
  - rewrite contributions_cons, accumulate_app, (tfidf_token_NoDup se t d Hnd).
    cbn [foldl]. unfold spec_tfidf_step at 2.
    destruct (decide (d ∈ spec_postings se t)) as [Hin|Hin].
    + rewrite decide_True by (by left).
      apply (tfidf_NoDup_from se tokens d _ Hnd).
    + change (accumulate None []) with (@None float).
      rewrite IH. destruct (decide (Exists _ tokens)) as [Hex|Hex].
      * rewrite decide_True by (by right). done.
      * rewrite decide_False; [done|].
        intros [?|?]%Exists_cons; done.
Qed.

(** *** C1 *)

(** C1, at an engine where the code departs from it.  In the corpus
    ["a a"], ["b"] the posting list of "a" is [[0; 0]]: the scorer takes
    [idf = Log (2 / 2)] and adds [tf * idf] under document 0 twice, where
    the specification, with one document containing "a", has the single
    summand [tf * Log (2 / 1)]. *)
Theorem CalculateTFIDFScore_twice :
  ∃ scores,
    CalculateTFIDFScore Log (main_searchEngine twice_documents) ["a"] = Some scores ∧
    scores !! 0 = Some (0 + 2 * Log 1 + 2 * Log 1)%float ∧
    spec_tfidf_score Log (main_searchEngine twice_documents) ["a"] 0 =
      (0 + 2 * Log 2)%float.
Proof.
  eexists. split; [vm_compute; reflexivity|].
  split; vm_compute; reflexivity.
Qed.

End TfidfFacts.

(** ** Search *)

Section SearchFacts.

Variable Log : float → float.
Variable range_map : gmap Z float → list (Z * float).
Hypothesis range_map_entries : ∀ scores, range_map scores ≡ₚ map_to_list scores.

Implicit Types (se : SearchEngine) (scores : gmap Z float) (d docID : Z).

(** *** Queries without a token *)

Lemma asciiSpace_lower_byte c :
  strings.asciiSpace (strings.lower_byte c) = strings.asciiSpace c.
Proof. destruct c as [[] [] [] [] [] [] [] []]; reflexivity. Qed.

Lemma whitespace_only_ToLower s :
  whitespace_only (strings.ToLower s) = whitespace_only s.
Proof.
  induction s as [|c s IH]; [done|].
  simpl. by rewrite asciiSpace_lower_byte, IH.
Qed.

Lemma Fields_whitespace_only s :
  whitespace_only s = true → strings.Fields s = [].
Proof.
  unfold strings.Fields. induction s as [|c s IH]; [done|].
  simpl. destruct (strings.asciiSpace c); [|done]. apply IH.
Qed.

(** *** The result list *)

Lemma Search_results_length se entries acc results :
  Search_results se entries acc = Some results →
  length results = (length acc + length entries)%nat.
Proof.
  revert acc; induction entries as [|[docID score] entries IH]; intros acc.
  - intros [= ->]. simpl. lia.
  - cbn [Search_results].
    destruct (at_index (documents se) docID); [|done].
    cbn [mbind option_bind]. intros H%IH.
    rewrite H, length_app. simpl. lia.
Qed.

Lemma Search_results_total se entries acc :
  (∀ docID score, (docID, score) ∈ entries →
                  is_Some (at_index (documents se) docID)) →
  is_Some (Search_results se entries acc).
Proof.
  revert acc; induction entries as [|[docID score] entries IH]; intros acc Hin.
  - by eexists.
  - cbn [Search_results].
    destruct (Hin docID score) as [doc ->]; [left|].
    cbn [mbind option_bind]. apply IH.
    intros d x Hd. apply (Hin d x). by right.
Qed.

(** A key of the score map went through [se.documents[docID]] in the
    scorer. *)
Lemma CalculateTFIDFScore_keys se tokens scores :
  CalculateTFIDFScore Log se tokens = Some scores →
  ∀ d, is_Some (scores !! d) → is_Some (at_index (documents se) d).
Proof.
  unfold CalculateTFIDFScore. rewrite tfidf_tokens_range. intros H.
  apply (range_tokens_keys _ _ _ _ _ H).
  intros d. rewrite lookup_empty. by intros [? ?].
Qed.

(** [Search] panics only where the scorer does. *)
Lemma Search_Some se query scores :
  CalculateTFIDFScore Log se (strings.Fields (strings.ToLower query)) = Some scores →
  ∃ collected,
    Search_results se (range_map scores) [] = Some collected ∧
    Search Log range_map se query =
      Some (let results :=
              sort_Slice (λ a b, (Score b <? Score a)%float) collected in
            if 10 <? len results then take 10 results else results).
Proof.
  intros Hs. unfold Search. rewrite Hs. cbn [mbind option_bind].
  destruct (Search_results_total se (range_map scores) []) as [collected Hc].
  { intros docID score Hin. rewrite range_map_entries in Hin.
    apply elem_of_map_to_list in Hin.
    apply (CalculateTFIDFScore_keys _ _ _ Hs). by eexists. }
  exists collected. by rewrite Hc.
Qed.

Lemma Search_inv se query results :
  Search Log range_map se query = Some results →
  ∃ scores collected,
    CalculateTFIDFScore Log se (strings.Fields (strings.ToLower query)) = Some scores ∧
    Search_results se (range_map scores) [] = Some collected ∧
    results =
      (let results :=
         sort_Slice (λ a b, (Score b <? Score a)%float) collected in
       if 10 <? len results then take 10 results else results).
Proof.
  intros H.
  destruct (CalculateTFIDFScore Log se (strings.Fields (strings.ToLower query)))
    as [scores|] eqn:Hs.
  - destruct (Search_Some se query scores Hs) as (collected & Hc & HS).
    exists scores, collected. rewrite HS in H. by injection H as <-.
  - unfold Search in H. by rewrite Hs in H.
Qed.

Lemma Search_total se query :
  postings_in_range se → is_Some (Search Log range_map se query).
Proof.
  intros Hrange.
  destruct (CalculateTFIDFScore_terms Log se
              (strings.Fields (strings.ToLower query)) Hrange)
    as (scores & Hs & _).
  destruct (Search_Some _ _ _ Hs) as (collected & _ & ->). by eexists.
Qed.

Lemma truncate_length {A} (l : list A) :
  length (if 10 <? len l then take 10 l else l) = (10 `min` length l)%nat.
Proof.
  unfold len. destruct (Z.ltb_spec 10 (Z.of_nat (length l))).
  - rewrite length_take. lia.
  - lia.
Qed.

Lemma truncate_lookup {A} (l : list A) i x :
  (if 10 <? len l then take 10 l else l) !! i = Some x → l !! i = Some x.
Proof.
  destruct (10 <? len l); [|done].
  by intros [? _]%lookup_take_Some.
Qed.

(** *** C7 *)

(** C7. For every engine and every query, the result sequence that
    [Search] returns is in descending order of score: for each adjacent
    pair [(a, b)], [a.Score < b.Score] is false, and [a.Score >= b.Score]
    holds whenever the two scores are numbers.  [Search] returns on every
    engine whose posting lists hold valid indices. *)
Theorem Search_descending (se : SearchEngine) (query : string) :
  (postings_in_range se → is_Some (Search Log range_map se query)) ∧
  (∀ results, Search Log range_map se query = Some results → descending results).
Proof.
  split; [apply Search_total|].
  intros results (scores & collected & _ & _ & ->)%Search_inv i a b Ha Hb.
  cbn zeta in Ha, Hb. apply truncate_lookup in Ha, Hb.
  assert (Hlt : (Score a <? Score b)%float = false).
  { apply (sort_Slice_adjacent (λ a b, (Score b <? Score a)%float)
             (λ x y, float_ltb_asym (Score y) (Score x)) collected i a b Ha Hb). }
  split; [done|]. intros Hna Hnb. by apply float_not_ltb_leb.
Qed.

(** *** C8 *)

(** C8. For every engine and every query, the result sequence that
    [Search] returns has at most 10 entries, and fewer than 10 exactly
    when fewer than 10 documents have a score: its length is the lesser
    of 10 and the size of the score map.  [Search] returns on every
    engine whose posting lists hold valid indices. *)
Theorem Search_limit (se : SearchEngine) (query : string) :
  (postings_in_range se → is_Some (Search Log range_map se query)) ∧
  (∀ results,
     Search Log range_map se query = Some results →
     ∃ scores,
       CalculateTFIDFScore Log se (strings.Fields (strings.ToLower query))
         = Some scores ∧
       (length results ≤ 10)%nat ∧
       ((length results < 10)%nat ↔ (size scores < 10)%nat) ∧
       length results = (10 `min` size scores)%nat).
Proof.
  split; [apply Search_total|].
  intros results (scores & collected & Hs & Hc & ->)%Search_inv.
  exists scores. split; [done|].
  cbn zeta. rewrite truncate_length, sort_Slice_length.
  apply Search_results_length in Hc.
  rewrite Hc, range_map_entries, length_map_to_list.
  change (length (@nil Document)) with 0%nat. lia.
Qed.

(** *** C9 *)

(** C9. For every engine, a query that is empty or all white space, and a
    query none of whose tokens is in the index, make both scorers return
    the empty score map and [Search] return the empty result sequence:
    none of the three panics. *)
Theorem Search_no_match (se : SearchEngine) (query : string) :
  whitespace_only query = true ∨
  (∀ t, t ∈ strings.Fields (strings.ToLower query) → index se !! t = None) →
  Search Log range_map se query = Some [] ∧
  CalculateTFIDFScore Log se (strings.Fields (strings.ToLower query)) = Some ∅ ∧
  CalculateBM25Score Log se (strings.Fields (strings.ToLower query)) = Some ∅.
Proof.
  intros H.
  assert (Hno : ∀ t, t ∈ strings.Fields (strings.ToLower query) →
                     index se !! t = None).
  { destruct H as [Hws|H]; [|done].
    rewrite Fields_whitespace_only by (by rewrite whitespace_only_ToLower).
    by intros t ?%elem_of_nil. }
  assert (Htfidf : CalculateTFIDFScore Log se
                     (strings.Fields (strings.ToLower query)) = Some ∅).
  { unfold CalculateTFIDFScore. rewrite tfidf_tokens_range.
    by apply range_tokens_unknown. }
  split; [|split; [done|]].
  - unfold Search. rewrite Htfidf. cbn [mbind option_bind].
    pose proof (range_map_entries ∅) as Hnil.
    rewrite map_to_list_empty in Hnil.
    apply Permutation_nil_r in Hnil. by rewrite Hnil.
  - unfold CalculateBM25Score. rewrite bm25_tokens_range.
    by apply range_tokens_unknown.
Qed.

(** *** C10 *)

(** C10. On the engine that [main] constructs from a corpus whose
    documents sit at the positions of their ids, every id of every
    posting list is a valid index into [documents], and neither scorer
    nor [Search] panics on an index out of range, whatever the query. *)
Theorem dense_in_bounds (docs : list Document) :
  dense docs →
  (∀ t docSet docID,
     BuildInvertedIndex docs !! t = Some docSet → docID ∈ docSet →
     0 ≤ docID < len docs ∧ is_Some (at_index docs docID)) ∧
  (∀ tokens,
     is_Some (CalculateTFIDFScore Log (main_searchEngine docs) tokens) ∧
     is_Some (CalculateBM25Score Log (main_searchEngine docs) tokens)) ∧
  (∀ query, is_Some (Search Log range_map (main_searchEngine docs) query)).
Proof.
  intros Hrange%dense_postings_in_range.
  split; [|split].
  - intros t docSet docID Ht Hin.
    pose proof (Hrange t docSet docID Ht Hin) as Hb.
    split; [done|]. by apply at_index_in_range.
  - intros tokens. unfold CalculateTFIDFScore, CalculateBM25Score.
    rewrite tfidf_tokens_range, bm25_tokens_range.
    split; by apply range_tokens_total.
  - intros query. by apply Search_total.
Qed.

End SearchFacts.

(** ** The engine of [main] *)

Section MainFacts.

(** A corpus whose ids count up from 0 is dense. *)
Lemma dense_check (docs : list Document) :
  ID <$> docs = Z.of_nat <$> seq 0 (length docs) → dense docs.
Proof.
  intros H i doc Hi.
  assert (Hid : (ID <$> docs) !! i = Some (ID doc))
    by (by rewrite list_lookup_fmap, Hi).
  rewrite H, list_lookup_fmap in Hid.
  rewrite lookup_seq_lt in Hid by (by apply lookup_lt_Some in Hi).
  by injection Hid as <-.
Qed.

Lemma dense_fox_documents : dense fox_documents.
Proof. by apply dense_check. Qed.

Lemma dense_main_documents : dense main_documents.
Proof. by apply dense_check. Qed.

(** *** C3 *)

(** C3, at a corpus where the code departs from it.  The loop of lines
    135-137 adds up [len(doc.Content)], the byte length of each content:
    for the documents "the quick brown fox" and "the lazy dog" the field
    is (19 + 12) / 2 = 15.5, where the mean of the token counts 4 and 3,
    the document length that the BM25 scorer divides by it, is 3.5. *)
Theorem avgDocLength_bytes :
  avgDocLength (main_searchEngine fox_documents) = 15.5%float ∧
  spec_averageDocumentLength fox_documents = 3.5%float.
Proof. split; reflexivity. Qed.

(** The same on the corpus of [main]: 5571 bytes in 31 documents. *)
Example avgDocLength_main_documents :
  main_docLength main_documents = 5571%float ∧
  avgDocLength (main_searchEngine main_documents) = 0x1.676b5ad6b5ad7p+7%float ∧
  spec_averageDocumentLength main_documents = 0x1.14a5294a5294ap+5%float.
Proof. repeat split; vm_compute; reflexivity. Qed.

End MainFacts.

(** ** The statements on sample inputs *)

Lemma CalculateBM25Score_terms_witness :
  postings_in_range (main_searchEngine fox_documents) ∧
  ∃ scores,
    CalculateBM25Score Log_near_1 (main_searchEngine fox_documents) ["fox"]
      = Some scores ∧
    ∀ d, scores !! d =
           accumulate None
             (contributions (bm25_term Log_near_1)
                (main_searchEngine fox_documents) ["fox"] d).
Proof.
  split; [apply dense_postings_in_range, dense_fox_documents|].
  eexists. split; [vm_compute; reflexivity|].
  apply (CalculateBM25Score_terms Log_near_1
           (main_searchEngine fox_documents) ["fox"]).
  vm_compute. reflexivity.
Defined.

Lemma Search_descending_witness :
  (∀ scores : gmap Z float, map_to_list scores ≡ₚ map_to_list scores) ∧
  postings_in_range (main_searchEngine main_documents) ∧
  ∃ results,
    Search Log_near_1 map_to_list (main_searchEngine main_documents) "the fox"
      = Some results ∧
    length results = 10%nat ∧
    descending results.
Proof.
  split; [done|]. split; [apply dense_postings_in_range, dense_main_documents|].
  eexists. split; [vm_compute; reflexivity|]. split; [reflexivity|].
  apply (Search_descending Log_near_1 map_to_list (λ _, reflexivity _)
           (main_searchEngine main_documents) "the fox").
  vm_compute. reflexivity.
Defined.

Lemma Search_limit_witness :
  (∀ scores : gmap Z float, map_to_list scores ≡ₚ map_to_list scores) ∧
  postings_in_range (main_searchEngine main_documents) ∧
  ∃ results,
    Search Log_near_1 map_to_list (main_searchEngine main_documents) "the"
      = Some results ∧
    ∃ scores,
      CalculateTFIDFScore Log_near_1 (main_searchEngine main_documents)
        (strings.Fields (strings.ToLower "the")) = Some scores ∧
      (length results ≤ 10)%nat ∧
      ((length results < 10)%nat ↔ (size scores < 10)%nat) ∧
      length results = (10 `min` size scores)%nat.
Proof.
  split; [done|]. split; [apply dense_postings_in_range, dense_main_documents|].
  eexists. split; [vm_compute; reflexivity|].
  apply (Search_limit Log_near_1 map_to_list (λ _, reflexivity _)
           (main_searchEngine main_documents) "the").
  vm_compute. reflexivity.
Defined.

Lemma Search_no_match_witness :
  (∀ scores : gmap Z float, map_to_list scores ≡ₚ map_to_list scores) ∧
  (whitespace_only "  " = true ∧
   Search Log_near_1 map_to_list (main_searchEngine fox_documents) "  " = Some []) ∧
  ((∀ t, t ∈ strings.Fields (strings.ToLower "Cat") →
         index (main_searchEngine fox_documents) !! t = None) ∧
   Search Log_near_1 map_to_list (main_searchEngine fox_documents) "Cat" = Some []).
Proof.
  assert (Hcat : ∀ t, t ∈ strings.Fields (strings.ToLower "Cat") →
                      index (main_searchEngine fox_documents) !! t = None).
  { intros t Ht. vm_compute in Ht. apply list_elem_of_singleton in Ht as ->.
    reflexivity. }
  split; [done|]. split; (split; [done|]).
  - apply (Search_no_match Log_near_1 map_to_list (λ _, reflexivity _)
             (main_searchEngine fox_documents) "  ").
    left. reflexivity.
  - apply (Search_no_match Log_near_1 map_to_list (λ _, reflexivity _)
             (main_searchEngine fox_documents) "Cat").
    right. exact Hcat.
Defined.

Lemma dense_in_bounds_witness :
  (∀ scores : gmap Z float, map_to_list scores ≡ₚ map_to_list scores) ∧
  dense main_documents ∧
  (∀ t docSet docID,
     BuildInvertedIndex main_documents !! t = Some docSet → docID ∈ docSet →
     0 ≤ docID < len main_documents ∧ is_Some (at_index main_documents docID)) ∧
  (∀ tokens,
     is_Some (CalculateTFIDFScore Log_near_1 (main_searchEngine main_documents) tokens) ∧
     is_Some (CalculateBM25Score Log_near_1 (main_searchEngine main_documents) tokens)) ∧
  (∀ query, is_Some (Search Log_near_1 map_to_list
                       (main_searchEngine main_documents) query)).
Proof.
  split; [done|]. split; [exact dense_main_documents|].
  apply (dense_in_bounds Log_near_1 map_to_list (λ _, reflexivity _)
           main_documents dense_main_documents).
Defined.

(** * Further properties of the code *)

(** ** Tokens *)

Section TokenFacts.

Import strings.

Lemma all_bytes_app P s1 s2 :
  all_bytes P (s1 ++ s2)%string = all_bytes P s1 && all_bytes P s2.
Proof.
  induction s1 as [|c s1 IH]; simpl; [done|].
  by rewrite IH, andb_assoc.
Qed.

Lemma string_app_assoc s1 s2 s3 :
  ((s1 ++ s2) ++ s3)%string = (s1 ++ s2 ++ s3)%string.
Proof.
  induction s1 as [|c s1 IH]; [done|].
  change (String c ((s1 ++ s2) ++ s3) = String c (s1 ++ s2 ++ s3))%string.
  by rewrite IH.
Qed.

(** The fields of a string are not empty, hold no white space, and keep
    every property that all bytes of the string have. *)
Lemma Fields_from_fields P field s t :
  all_bytes P field = true → all_bytes P s = true →
  all_bytes (λ c, negb (asciiSpace c)) field = true →
  t ∈ Fields_from field s →
  t ≠ "" ∧ all_bytes P t = true ∧ all_bytes (λ c, negb (asciiSpace c)) t = true.
Proof.
  revert field; induction s as [|c s IH]; intros field HPf HPs Hf; simpl.
  - destruct field; [by intros ?%elem_of_nil|].
    by intros ->%list_elem_of_singleton.
  - simpl in HPs. apply andb_prop in HPs as [HPc HPs].
    destruct (asciiSpace c) eqn:Hc.
    + destruct field as [|a field].
      * by apply IH.
      * intros [->|Ht]%elem_of_cons; [done|]. by apply (IH "").
    + apply IH; [|done|].
      * rewrite all_bytes_app. simpl. by rewrite HPf, HPc.
      * rewrite all_bytes_app. simpl. by rewrite Hf, Hc.
Qed.

Lemma all_bytes_ToLower s :
  all_bytes (λ c, Ascii.eqb (lower_byte c) c) (ToLower s) = true.
Proof.
  induction s as [|c s IH]; simpl; [done|].
  by rewrite lower_byte_idem, Ascii.eqb_refl.
Qed.

Lemma all_bytes_lower s :
  all_bytes (λ c, Ascii.eqb (lower_byte c) c) s = true → ToLower s = s.
Proof.
  induction s as [|c s IH]; simpl; [done|].
  intros [Hc Hs]%andb_prop. apply Ascii.eqb_eq in Hc. by rewrite Hc, IH.
Qed.

(** A token of a lower-cased text. *)
Lemma token_shape s t :
  t ∈ Fields (ToLower s) →
  t ≠ "" ∧ ToLower t = t ∧ all_bytes (λ c, negb (asciiSpace c)) t = true.
Proof.
  intros Ht.
  destruct (Fields_from_fields (λ c, Ascii.eqb (lower_byte c) c) "" (ToLower s) t)
    as (Hne & Hlow & Hsp); try done.
  - apply all_bytes_ToLower.
  - split; [done|]. split; [|done]. by apply all_bytes_lower.
Qed.

(** A field is a piece of the text. *)
Lemma Fields_from_substring field s t :
  t ∈ Fields_from field s →
  ∃ pre post, (field ++ s)%string = (pre ++ t ++ post)%string.
Proof.
  revert field; induction s as [|c s IH]; intros field; simpl.
  - destruct field as [|a field]; [by intros ?%elem_of_nil|].
    intros ->%list_elem_of_singleton. by exists "", "".
  - destruct (asciiSpace c).
    + assert (Hrest : t ∈ Fields_from "" s →
                      ∃ pre post, (field ++ String c s)%string = (pre ++ t ++ post)%string).
      { intros (pre & post & E)%IH. simpl in E.
        exists (field ++ String c pre)%string, post.
        rewrite string_app_assoc.
        change (String c pre ++ t ++ post)%string
          with (String c (pre ++ t ++ post)%string).
        by rewrite <- E. }
      destruct field as [|a field]; [done|].
      intros [->|Ht]%elem_of_cons; [|by apply Hrest].
      exists "", (String c s). done.
    + intros (pre & post & E)%IH. exists pre, post.
      by rewrite <- E, string_app_assoc.
Qed.

Lemma token_substring s t :
  t ∈ Fields s → ∃ pre post, s = (pre ++ t ++ post)%string.
Proof. apply (Fields_from_substring ""). Qed.

End TokenFacts.

(** ** More on the inverted index *)

Section IndexMore.

Implicit Types (docs : list Document) (t : string) (docSet : list Z).

Lemma postings_of_app docs1 docs2 t :
  postings_of (docs1 ++ docs2) t = postings_of docs1 t ++ postings_of docs2 t.
Proof. apply bind_app. Qed.

Lemma postings_of_length docs t :
  len (postings_of docs t) = corpus_token_count t docs.
Proof.
  induction docs as [|doc docs IH]; [done|].
  unfold postings_of in *. rewrite bind_cons. unfold len in *.
  rewrite length_app, Nat2Z.inj_add, IH. cbn [corpus_token_count foldr].
  by rewrite <- doc_postings_length.
Qed.

Lemma filter_doc_postings x t doc :
  filter (λ docID, docID = x) (doc_postings t doc) =
    if decide (ID doc = x) then doc_postings t doc else [].
Proof.
  unfold doc_postings.
  induction (filter _ (strings.Fields _)) as [|token tokens IH]; cbn [fmap list_fmap].
  - by case_decide.
  - rewrite filter_cons, IH. by repeat case_decide.
Qed.

Lemma filter_postings_of x t docs :
  filter (λ docID, docID = x) (postings_of docs t) =
    postings_of (filter (λ doc, ID doc = x) docs) t.
Proof.
  unfold postings_of. induction docs as [|doc docs IH]; [done|].
  rewrite bind_cons, filter_app, IH, filter_doc_postings, filter_cons.
  case_decide; [by rewrite bind_cons|done].
Qed.

Lemma filter_none {A} (P : A → Prop) `{∀ x, Decision (P x)} (l : list A) :
  (∀ x, x ∈ l → ¬ P x) → filter P l = [].
Proof.
  induction l as [|x l IH]; [done|]. intros Hno.
  rewrite filter_cons, decide_False by (apply Hno; left).
  apply IH. intros y Hy. apply Hno. by right.
Qed.

Lemma filter_unique_id docs doc :
  NoDup (ID <$> docs) → doc ∈ docs →
  filter (λ doc', ID doc' = ID doc) docs = [doc].
Proof.
  induction docs as [|doc0 docs IH]; [by intros _ ?%elem_of_nil|].
  rewrite fmap_cons, NoDup_cons, filter_cons.
  intros [Hnot Hnd] [->|Hin]%elem_of_cons.
  - rewrite decide_True by done. f_equal.
    apply filter_none. intros doc' Hin' E.
    apply Hnot. rewrite <- E. by apply list_elem_of_fmap_2.
  - rewrite decide_False; [by apply IH|].
    intros E. apply Hnot. rewrite E. by apply list_elem_of_fmap_2.
Qed.

(** X1. The posting list of a term has one entry per token equal to the term
    in the whole corpus, and, where ids are unique, as many entries of a
    document's id as the document has such tokens. *)
Theorem posting_list_multiplicity docs t docSet :
  BuildInvertedIndex docs !! t = Some docSet →
  len docSet = corpus_token_count t docs ∧
  (NoDup (ID <$> docs) →
   ∀ doc, doc ∈ docs →
          len (filter (λ docID, docID = ID doc) docSet) = token_count t (Content doc)).
Proof.
  rewrite BuildInvertedIndex_lookup, extend_None_Some. intros [_ ->].
  split; [apply postings_of_length|].
  intros Hnd doc Hdoc.
  rewrite filter_postings_of, (filter_unique_id docs doc Hnd Hdoc).
  unfold postings_of. rewrite bind_cons.
  change ([] ≫= doc_postings t) with (@nil Z). rewrite app_nil_r.
  apply doc_postings_length.
Qed.

(** X2. A term has an entry in the index exactly when it is a token of some
    document; the entry is never the empty list, and its ids are the ids of
    the documents that have the term among their tokens. *)
Theorem index_entry_iff docs t :
  (is_Some (BuildInvertedIndex docs !! t) ↔
   ∃ doc, doc ∈ docs ∧ t ∈ strings.Fields (strings.ToLower (Content doc))) ∧
  (∀ docSet,
     BuildInvertedIndex docs !! t = Some docSet →
     docSet ≠ [] ∧
     ∀ docID, docID ∈ docSet ↔
              ∃ doc, doc ∈ docs ∧ ID doc = docID ∧
                     t ∈ strings.Fields (strings.ToLower (Content doc))).
Proof.
  split.
  - rewrite BuildInvertedIndex_lookup. split.
    + intros [docSet [Hne ->]%extend_None_Some].
      destruct (postings_of docs t) as [|x l] eqn:E; [done|].
      assert (Hx : x ∈ postings_of docs t) by (rewrite E; left).
      apply elem_of_postings_of in Hx as (doc & ? & _ & ?). eauto.
    + intros (doc & Hdoc & Ht).
      assert (Hx : ID doc ∈ postings_of docs t)
        by (apply elem_of_postings_of; eauto).
      destruct (postings_of docs t) as [|x l] eqn:E; [by apply elem_of_nil in Hx|].
      by eexists.
  - intros docSet H. split.
    + rewrite BuildInvertedIndex_lookup in H.
      by apply extend_None_Some in H as [? ->].
    + intros docID. by apply BuildInvertedIndex_elem_of.
Qed.

(** X3. The keys of the index are tokens: not empty, in lower case, without
    white space. *)
Theorem index_key_shape docs t :
  is_Some (BuildInvertedIndex docs !! t) →
  t ≠ "" ∧ strings.ToLower t = t ∧
  all_bytes (λ c, negb (strings.asciiSpace c)) t = true.
Proof.
  intros [docSet H].
  rewrite BuildInvertedIndex_lookup in H. apply extend_None_Some in H as [Hne ->].
  destruct (postings_of docs t) as [|x l] eqn:E; [done|].
  assert (Hx : x ∈ postings_of docs t) by (rewrite E; left).
  apply elem_of_postings_of in Hx as (doc & _ & _ & Ht).
  by apply token_shape in Ht.
Qed.

(** X5. Indexing a corpus in two parts: the posting list of the whole is the
    posting list of the first part followed by that of the second. *)
Theorem BuildInvertedIndex_app docs1 docs2 t :
  default [] (BuildInvertedIndex (docs1 ++ docs2) !! t) =
    default [] (BuildInvertedIndex docs1 !! t) ++
    default [] (BuildInvertedIndex docs2 !! t).
Proof.
  assert (Hd : ∀ ids, default [] (extend None ids) = ids) by (by intros []).
  by rewrite !BuildInvertedIndex_lookup, !Hd, postings_of_app.
Qed.

Lemma dense_at_index docs doc :
  dense docs → doc ∈ docs → at_index docs (ID doc) = Some doc.
Proof.
  intros Hdense [i Hi]%list_elem_of_lookup.
  rewrite (Hdense i doc Hi). unfold at_index.
  destruct (Z.ltb_spec (Z.of_nat i) 0); [lia|]. by rewrite Nat2Z.id.
Qed.

(** X6. In the engine of a dense corpus, a document in the posting list of a
    term has a positive term frequency for it: no indexed document is
    scored with a zero count. *)
Theorem indexed_tf_positive docs t docSet docID :
  dense docs →
  BuildInvertedIndex docs !! t = Some docSet → docID ∈ docSet →
  ∃ doc, at_index docs docID = Some doc ∧
         0 < strings.Count (strings.ToLower (Content doc)) t.
Proof.
  intros Hdense Ht Hin.
  apply (BuildInvertedIndex_elem_of _ _ _ docID Ht) in Hin as (doc & Hdoc & <- & Htok).
  exists doc. split; [by apply dense_at_index|].
  destruct (token_shape _ _ Htok) as (Hne & _ & _).
  apply Count_positive; [done|]. by apply token_substring.
Qed.

Lemma dense_tail doc docs :
  dense (doc :: docs) → ∀ doc', doc' ∈ docs → ID doc < ID doc'.
Proof.
  intros Hdense doc' [i Hi]%list_elem_of_lookup.
  rewrite (Hdense 0%nat doc eq_refl), (Hdense (S i) doc' Hi). lia.
Qed.

Lemma postings_of_sorted docs t :
  StronglySorted Z.le (ID <$> docs) → StronglySorted Z.le (postings_of docs t).
Proof.
  induction docs as [|doc docs IH]; [constructor|].
  rewrite fmap_cons. intros [Hall Hs]%StronglySorted_cons.
  unfold postings_of. rewrite bind_cons. apply StronglySorted_app_2.
  - intros x1 x2 [-> _]%elem_of_doc_postings Hx2.
    apply elem_of_postings_of in Hx2 as (doc' & Hdoc' & <- & _).
    rewrite Forall_forall in Hall. apply Hall. by apply list_elem_of_fmap_2.
  - unfold doc_postings.
    induction (filter _ (strings.Fields _)) as [|token tokens IHt]; [constructor|].
    cbn [fmap list_fmap]. constructor; [done|].
    apply Forall_forall. intros x (? & -> & _)%list_elem_of_fmap. done.
  - by apply IH.
Qed.

Lemma StronglySorted_lookup_le (l : list Z) i j a b :
  StronglySorted Z.le l → l !! i = Some a → l !! j = Some b → (i ≤ j)%nat → a ≤ b.
Proof.
  intros Hs. revert i j. induction Hs as [|x l Hs IH Hall]; intros i j; [done|].
  destruct i as [|i], j as [|j]; simpl; try lia.
  - intros [= ->] [= ->] _. lia.
  - intros [= ->] Hb _. rewrite Forall_forall in Hall.
    apply Hall. by apply list_elem_of_lookup_2 in Hb.
  - intros Ha Hb Hij. apply (IH i j); [done..|lia].
Qed.

End IndexMore.

Section IndexSorted.

Lemma ids_from_sorted (docs : list Document) (k : nat) :
  (∀ i doc, docs !! i = Some doc → ID doc = Z.of_nat (k + i)) →
  StronglySorted Z.le (ID <$> docs).
Proof.
  revert k; induction docs as [|doc docs IH]; intros k Hk; [constructor|].
  rewrite fmap_cons. constructor.
  - apply (IH (S k)). intros i doc' Hi.
    rewrite (Hk (S i) doc' Hi). f_equal. lia.
  - apply Forall_forall. intros x (doc' & -> & [i Hi]%list_elem_of_lookup)%list_elem_of_fmap.
    rewrite (Hk 0%nat doc eq_refl), (Hk (S i) doc' Hi). lia.
Qed.

(** X4. The posting lists of a dense corpus are in ascending order of id
    (repeated ids side by side). *)
Theorem posting_list_sorted (docs : list Document) (t : string) (docSet : list Z) :
  dense docs →
  BuildInvertedIndex docs !! t = Some docSet →
  ∀ i j a b, docSet !! i = Some a → docSet !! j = Some b → (i ≤ j)%nat → a ≤ b.
Proof.
  intros Hdense H i j a b.
  rewrite BuildInvertedIndex_lookup in H. apply extend_None_Some in H as [_ ->].
  apply StronglySorted_lookup_le, postings_of_sorted, (ids_from_sorted docs 0).
  apply Hdense.
Qed.

End IndexSorted.

(** ** More on the scoring loops *)

Section LoopMore.

Implicit Types (se : SearchEngine) (scores : gmap Z float) (d docID : Z).

Lemma at_index_is_Some (docs : list Document) d :
  is_Some (at_index docs d) ↔ 0 ≤ d < len docs.
Proof.
  split; [|apply at_index_in_range].
  intros [doc H]. by apply at_index_Some_range in H.
Qed.

(** One posting list is walked to its end exactly when all its ids are
    valid indices. *)
Lemma range_docSet_is_Some se summand docSet scores :
  is_Some (range_docSet se summand docSet scores) ↔
  ∀ docID, docID ∈ docSet → 0 ≤ docID < len (documents se).
Proof.
  split; [|apply range_docSet_total].
  revert scores; induction docSet as [|docID docSet IH]; intros scores.
  - by intros _ d ?%elem_of_nil.
  - cbn [range_docSet].
    destruct (at_index (documents se) docID) as [doc|] eqn:Hdoc;
      [|by intros [? ?]].
    cbn [mbind option_bind]. intros H d [->|Hd]%elem_of_cons.
    + by apply at_index_Some_range in Hdoc.
    + by apply (IH _ H).
Qed.

Lemma range_tokens_is_Some se summand tokens scores :
  is_Some (range_tokens se summand tokens scores) ↔ query_in_range se tokens.
Proof.
  revert scores; induction tokens as [|token tokens IH]; intros scores.
  - split; [|by eexists]. by intros _ t docSet docID ?%elem_of_nil.
  - cbn [range_tokens].
    destruct (index se !! token) as [docSet|] eqn:Ht.
    + destruct (range_docSet se (summand docSet token) docSet scores)
        as [scores1|] eqn:H1; cbn [mbind option_bind].
      * rewrite IH. split.
        -- intros Hq t docSet' docID [->|Hin]%elem_of_cons Ht' Hd.
           ++ rewrite Ht in Ht'. injection Ht' as <-.
              eapply range_docSet_is_Some; [by rewrite H1|done].
           ++ by apply (Hq t docSet').
        -- intros Hq t docSet' docID Hin. apply Hq. by right.
      * split; [by intros [? ?]|]. intros Hq.
        assert (Hs : is_Some (range_docSet se (summand docSet token) docSet scores)).
        { apply range_docSet_is_Some. intros docID Hd.
          apply (Hq token docSet); [left|done..]. }
        rewrite H1 in Hs. by destruct Hs.
    + rewrite IH. split.
      * intros Hq t docSet' docID [->|Hin]%elem_of_cons Ht' Hd; [congruence|].
        by apply (Hq t docSet').
      * intros Hq t docSet' docID Hin. apply Hq. by right.
Qed.

Lemma accumulate_is_Some o xs :
  is_Some (accumulate o xs) ↔ is_Some o ∨ xs ≠ [].
Proof.
  revert o; induction xs as [|x xs IH]; intros o.
  - simpl. split; [by left|]. by intros [?|?].
  - change (accumulate o (x :: xs))
      with (accumulate (Some (default 0 o + x)%float) xs).
    rewrite IH. split; [by right|]. intros _. left. by eexists.
Qed.

(** A document has a summand exactly when it is a candidate. *)
Lemma contributions_candidate term se tokens d :
  contributions term se tokens d ≠ [] ↔ candidate se tokens d.
Proof.
  unfold candidate. induction tokens as [|token tokens IH].
  - split; [done|]. by intros (t & docSet & ?%elem_of_nil & _).
  - rewrite contributions_cons.
    destruct (index se !! token) as [docSet|] eqn:Ht.
    + destruct (decide (d ∈ docSet)) as [Hin|Hin].
      * split.
        -- intros _. exists token, docSet. split; [left|done].
        -- intros _ E. apply app_eq_nil in E as [E _].
           apply fmap_nil_inv in E.
           apply (filter_nil_not_elem_of _ _ d) in E; done.
      * rewrite (filter_none (λ docID, docID = d) docSet)
          by (by intros x Hx ->).
        cbn [fmap list_fmap app]. rewrite IH. split.
        -- intros (t & docSet' & ? & ? & ?). exists t, docSet'.
           split; [by right|done].
        -- intros (t & docSet' & [->|?]%elem_of_cons & Ht' & Hd).
           ++ congruence.
           ++ by exists t, docSet'.
    + cbn [app]. rewrite IH. split.
      * intros (t & docSet' & ? & ? & ?). exists t, docSet'.
        split; [by right|done].
      * intros (t & docSet' & [->|?]%elem_of_cons & Ht' & Hd); [congruence|].
        by exists t, docSet'.
Qed.

Lemma range_tokens_keys_candidate se summand tokens scores d :
  range_tokens se summand tokens ∅ = Some scores →
  is_Some (scores !! d) ↔ candidate se tokens d.
Proof.
  intros H. rewrite (range_tokens_lookup _ _ _ _ _ d H), lookup_empty.
  rewrite accumulate_is_Some, contributions_candidate.
  split; [|by right]. by intros [[? ?]|?].
Qed.

(** Tokens without an index entry can be left out of the query. *)
Lemma range_tokens_known se summand tokens scores :
  range_tokens se summand tokens scores =
    range_tokens se summand
      (filter (λ t, is_Some (index se !! t)) tokens) scores.
Proof.
  revert scores; induction tokens as [|token tokens IH]; intros scores; [done|].
  rewrite filter_cons. cbn [range_tokens].
  destruct (index se !! token) as [docSet|] eqn:Ht.
  - rewrite decide_True by (by eexists). cbn [range_tokens]. rewrite Ht.
    destruct (range_docSet _ _ _ _); [apply IH|done].
  - rewrite decide_False by (by intros [? ?]). apply IH.
Qed.

End LoopMore.

Section ScorerMore.

Variable Log : float → float.

Implicit Types (se : SearchEngine) (scores : gmap Z float) (d docID : Z).

(** X7. Each scorer returns exactly when the posting lists that the query
    reads hold valid indices only; otherwise it panics.  The two scorers
    therefore return on the same inputs. *)
Theorem scorers_return_iff se tokens :
  (is_Some (CalculateTFIDFScore Log se tokens) ↔ query_in_range se tokens) ∧
  (is_Some (CalculateBM25Score Log se tokens) ↔ query_in_range se tokens).
Proof.
  unfold CalculateTFIDFScore, CalculateBM25Score.
  rewrite tfidf_tokens_range, bm25_tokens_range.
  split; apply range_tokens_is_Some.
Qed.

(** X8. The keys of the score map of either scorer are the candidates of the
    query: the ids found in the posting list of some query token.  The two
    maps have the same keys. *)
Theorem scorers_candidates se tokens scores_tfidf scores_bm25 :
  CalculateTFIDFScore Log se tokens = Some scores_tfidf →
  CalculateBM25Score Log se tokens = Some scores_bm25 →
  (∀ d, is_Some (scores_tfidf !! d) ↔ candidate se tokens d) ∧
  (∀ d, is_Some (scores_bm25 !! d) ↔ candidate se tokens d) ∧
  dom scores_tfidf = dom scores_bm25.
Proof.
  unfold CalculateTFIDFScore, CalculateBM25Score.
  rewrite tfidf_tokens_range, bm25_tokens_range. intros H1 H2.
  assert (K1 := λ d, range_tokens_keys_candidate _ _ _ _ d H1).
  assert (K2 := λ d, range_tokens_keys_candidate _ _ _ _ d H2).
  split; [done|]. split; [done|].
  apply set_eq. intros d. by rewrite !elem_of_dom, K1, K2.
Qed.

(** X10. The score map that the TF-IDF scorer returns holds, under each
    document, the sum in loop order of one summand [tf * idf] for each
    query token found in the index and each entry of the document in the
    token's posting list, with [idf = Log (N / len docSet)] taken from the
    length of the list; a document without such an entry has no key. *)
Theorem CalculateTFIDFScore_sum se tokens scores :
  CalculateTFIDFScore Log se tokens = Some scores →
  ∀ d, scores !! d =
         accumulate None (contributions (tfidf_term Log) se tokens d).
Proof.
  unfold CalculateTFIDFScore. rewrite tfidf_tokens_range. intros H d.
  by rewrite (range_tokens_lookup _ _ _ _ _ d H), lookup_empty.
Qed.

(** X9. Query tokens that have no entry in the index change nothing: either
    scorer gives the same result with them and without them. *)
Theorem scorers_ignore_unknown se tokens :
  CalculateTFIDFScore Log se tokens =
    CalculateTFIDFScore Log se (filter (λ t, is_Some (index se !! t)) tokens) ∧
  CalculateBM25Score Log se tokens =
    CalculateBM25Score Log se (filter (λ t, is_Some (index se !! t)) tokens).
Proof.
  unfold CalculateTFIDFScore, CalculateBM25Score.
  rewrite !tfidf_tokens_range, !bm25_tokens_range.
  split; apply range_tokens_known.
Qed.

End ScorerMore.

(** ** The order of scores *)

Section FloatMore.

Lemma SFleb_trans x y z :
  SFleb x y = true → SFleb y z = true → SFleb x z = true.
Proof.
  unfold SFleb.
  destruct x as [sx|sx| |sx mx ex], y as [sy|sy| |sy my ey],
           z as [sz|sz| |sz mz ez];
    try done; cbn [SFcompare];
    try (destruct sx; try done); try (destruct sy; try done);
    try (destruct sz; try done).
  all: repeat match goal with
       | |- context [(?a ?= ?b)%Z] => destruct (Z.compare_spec a b)
       | |- context [PosDef.Pos.compare_cont Eq ?a ?b] =>
           change (PosDef.Pos.compare_cont Eq a b) with (Pos.compare a b);
           destruct (Pos.compare_spec a b)
       end; cbn [CompOpp]; try done; try lia.
Qed.

(** [<=] on floats is transitive. *)
Lemma float_leb_trans (a b c : float) :
  (a <=? b)%float = true → (b <=? c)%float = true → (a <=? c)%float = true.
Proof. rewrite !FloatAxioms.leb_spec. apply SFleb_trans. Qed.

Lemma float_leb_not_nan (a b : float) :
  (a <=? b)%float = true →
  PrimFloat.is_nan a = false ∧ PrimFloat.is_nan b = false.
Proof.
  unfold PrimFloat.is_nan.
  rewrite !FloatAxioms.eqb_spec, FloatAxioms.leb_spec.
  unfold SFleb, SFeqb.
  destruct (Prim2SF a) as [sa|sa| |sa ma ea], (Prim2SF b) as [sb|sb| |sb mb eb];
    try done; intros _; cbn [SFcompare];
    rewrite ?Z.compare_refl; cbn;
    rewrite ?Pos.compare_cont_refl; try (by destruct sa); try (by destruct sb);
    by destruct sa, sb.
Qed.

End FloatMore.

(** ** More on [Search] *)

Section SearchMore.

Variable Log : float → float.
Variable range_map : gmap Z float → list (Z * float).
Hypothesis range_map_entries : ∀ scores, range_map scores ≡ₚ map_to_list scores.

Implicit Types (se : SearchEngine) (scores : gmap Z float) (d docID : Z).

(** The loop of lines 86-88 turns each entry of the score map into a
    result. *)
Lemma Search_results_fmap se entries acc results :
  Search_results se entries acc = Some results →
  results =
    acc ++ ((λ e, mkDocument e.1 (content_of se e.1) e.2) <$> entries).
Proof.
  revert acc; induction entries as [|[docID score] entries IH]; intros acc.
  - intros [= <-]. by rewrite app_nil_r.
  - cbn [Search_results].
    destruct (at_index (documents se) docID) as [doc|] eqn:Hdoc; [|done].
    cbn [mbind option_bind]. intros ->%IH.
    rewrite <- app_assoc. cbn. by rewrite (at_index_content se docID doc Hdoc).
Qed.

Lemma truncate_take {A} (l : list A) :
  (if 10 <? len l then take 10 l else l) = take 10 l.
Proof.
  unfold len. destruct (Z.ltb_spec 10 (Z.of_nat (length l))); [done|].
  rewrite take_ge; [done|lia].
Qed.

(** [Search], taken apart: the results are the first 10 of a list that
    holds one result per entry of the score map. *)
Lemma Search_take se query results :
  Search Log range_map se query = Some results →
  ∃ scores sorted,
    CalculateTFIDFScore Log se (strings.Fields (strings.ToLower query)) = Some scores ∧
    results = take 10 sorted ∧
    sorted ≡ₚ (λ e, mkDocument e.1 (content_of se e.1) e.2) <$> map_to_list scores ∧
    (∀ i a b, sorted !! i = Some a → sorted !! S i = Some b →
              (Score a <? Score b)%float = false).
Proof.
  intros H.
  apply (Search_inv Log range_map range_map_entries) in H
    as (scores & collected & Hs & Hc & ->).
  exists scores, (sort_Slice (λ a b, (Score b <? Score a)%float) collected).
  split; [done|]. split; [apply truncate_take|]. split.
  - rewrite sort_Slice_Permutation.
    apply Search_results_fmap in Hc as ->. cbn [app].
    by rewrite range_map_entries.
  - intros i a b Ha Hb.
    exact (sort_Slice_adjacent (λ a b, (Score b <? Score a)%float)
             (λ x y, float_ltb_asym (Score y) (Score x)) collected i a b Ha Hb).
Qed.

Lemma result_of_entry se scores r :
  r ∈ (λ e, mkDocument e.1 (content_of se e.1) e.2) <$> map_to_list scores ↔
  scores !! ID r = Some (Score r) ∧ Content r = content_of se (ID r).
Proof.
  rewrite list_elem_of_fmap. split.
  - intros ([d x] & -> & Hin%elem_of_map_to_list). done.
  - intros [Hs Hc]. exists (ID r, Score r). split.
    + destruct r as [d c x]. simpl in *. by rewrite Hc.
    + by apply elem_of_map_to_list.
Qed.

(** X13. Every result of [Search] is a scored document: its score is the one
    the scorer gave its id, its content is that of the document at this
    index, and no id is returned twice, however often posting lists repeat
    it. *)
Theorem Search_results_scored se query results :
  Search Log range_map se query = Some results →
  ∃ scores,
    CalculateTFIDFScore Log se (strings.Fields (strings.ToLower query)) = Some scores ∧
    NoDup (ID <$> results) ∧
    ∀ r, r ∈ results →
         scores !! ID r = Some (Score r) ∧
         ∃ doc, at_index (documents se) (ID r) = Some doc ∧ Content r = Content doc.
Proof.
  intros (scores & sorted & Hs & -> & Hperm & _)%Search_take.
  exists scores. split; [done|]. split.
  - rewrite fmap_take. apply (sublist_NoDup _ (ID <$> sorted)); [|apply sublist_take].
    rewrite Hperm, <- list_fmap_compose.
    apply (fin_maps.NoDup_fst_map_to_list scores).
  - intros r Hr. apply elem_of_take in Hr as (i & Hr & _).
    apply list_elem_of_lookup_2 in Hr. rewrite Hperm in Hr.
    apply result_of_entry in Hr as [Hscore Hcontent]. split; [done|].
    destruct (CalculateTFIDFScore_keys Log se _ scores Hs (ID r)) as [doc Hdoc];
      [by eexists|].
    exists doc. split; [done|].
    by rewrite Hcontent, (at_index_content se (ID r) doc Hdoc).
Qed.

(** X14. Where at most 10 documents have a score, [Search] returns every one
    of them. *)
Theorem Search_complete se query results scores :
  Search Log range_map se query = Some results →
  CalculateTFIDFScore Log se (strings.Fields (strings.ToLower query)) = Some scores →
  (size scores ≤ 10)%nat →
  ∀ d x, scores !! d = Some x → ∃ r, r ∈ results ∧ ID r = d ∧ Score r = x.
Proof.
  intros (scores' & sorted & Hs & -> & Hperm & _)%Search_take Hs' Hsize d x Hd.
  rewrite Hs in Hs'. injection Hs' as ->.
  assert (Hlen : length sorted = size scores)
    by (by rewrite Hperm, length_fmap, length_map_to_list).
  rewrite take_ge by lia.
  exists (mkDocument d (content_of se d) x). split; [|done].
  rewrite Hperm. by apply result_of_entry.
Qed.

(** X12. [Search] returns exactly when the posting lists that the query's
    tokens select hold valid indices only: it panics where the scorer
    panics and nowhere else. *)
Theorem Search_returns_iff se query :
  is_Some (Search Log range_map se query) ↔
  query_in_range se (strings.Fields (strings.ToLower query)).
Proof.
  rewrite <- (range_tokens_is_Some se
                (λ docSet token content,
                   (float64 (strings.Count (strings.ToLower content) token)
                    * Log (float64 (len (documents se)) / float64 (len docSet)))%float)
                _ ∅), <- tfidf_tokens_range.
  fold (CalculateTFIDFScore Log se (strings.Fields (strings.ToLower query))).
  split.
  - intros [results H].
    apply (Search_inv Log range_map range_map_entries) in H
      as (scores & _ & Hs & _). by eexists.
  - intros [scores Hs].
    destruct (Search_Some Log range_map range_map_entries se query scores Hs)
      as (collected & _ & ->). by eexists.
Qed.

Lemma adjacent_Sorted {A} (R : A → A → Prop) (l : list A) :
  (∀ i a b, l !! i = Some a → l !! S i = Some b → R a b) → Sorted R l.
Proof.
  induction l as [|x l IH]; intros H; [constructor|].
  constructor.
  - apply IH. intros i a b. apply (H (S i)).
  - destruct l as [|y l]; constructor. by apply (H 0%nat).
Qed.

(** Where every score is a number, the list that [Search] cuts to 10 is
    in descending order throughout. *)
Lemma Search_sorted se scores sorted :
  sorted ≡ₚ (λ e, mkDocument e.1 (content_of se e.1) e.2) <$> map_to_list scores →
  (∀ i a b, sorted !! i = Some a → sorted !! S i = Some b →
            (Score a <? Score b)%float = false) →
  (∀ d x, scores !! d = Some x → PrimFloat.is_nan x = false) →
  StronglySorted (λ a b, (Score b <=? Score a)%float = true) sorted.
Proof.
  intros Hperm Hadj Hnum.
  assert (Hnan : ∀ r, r ∈ sorted → PrimFloat.is_nan (Score r) = false).
  { intros r Hr. rewrite Hperm in Hr. apply result_of_entry in Hr as [Hr _].
    by apply (Hnum (ID r)). }
  apply Sorted_StronglySorted.
  - intros a b c Hab Hbc. by apply (float_leb_trans _ (Score b)).
  - apply adjacent_Sorted. intros i a b Ha Hb.
    apply float_not_ltb_leb; [| |by apply (Hadj i)].
    + apply Hnan. by apply list_elem_of_lookup_2 in Ha.
    + apply Hnan. by apply list_elem_of_lookup_2 in Hb.
Qed.

(** X15. Where every score is a number, [Search] returns the best: results come
    in descending order of score throughout (not only pair by pair), and a
    scored document that is left out scores no higher than any result. *)
Theorem Search_top se query results scores :
  Search Log range_map se query = Some results →
  CalculateTFIDFScore Log se (strings.Fields (strings.ToLower query)) = Some scores →
  (∀ d x, scores !! d = Some x → PrimFloat.is_nan x = false) →
  (∀ i j a b, results !! i = Some a → results !! j = Some b → (i < j)%nat →
              (Score b <=? Score a)%float = true) ∧
  (∀ d x, scores !! d = Some x → d ∉ ID <$> results →
          ∀ r, r ∈ results → (x <=? Score r)%float = true).
Proof.
  intros (scores' & sorted & Hs & -> & Hperm & Hadj)%Search_take Hs' Hnum.
  rewrite Hs in Hs'. injection Hs' as ->.
  pose proof (Search_sorted se scores sorted Hperm Hadj Hnum) as Hsorted.
  rewrite <- (take_drop 10 sorted) in Hsorted.
  apply StronglySorted_app in Hsorted as (Hcross & Htake & _).
  split.
  - clear Hcross. revert Htake. generalize (take 10 sorted). clear.
    intros l Hl. induction Hl as [|x l Hl IH Hall]; intros i j a b; [done|].
    destruct i as [|i], j as [|j]; simpl; try lia.
    + intros [= ->] Hb _. rewrite Forall_forall in Hall.
      apply Hall. by apply list_elem_of_lookup_2 in Hb.
    + intros Ha Hb Hij. apply (IH i j); [done..|lia].
  - intros d x Hd Hout r Hr.
    assert (Hin : mkDocument d (content_of se d) x ∈ sorted)
      by (rewrite Hperm; by apply result_of_entry).
    rewrite <- (take_drop 10 sorted) in Hin.
    apply elem_of_app in Hin as [Hin|Hin].
    + destruct Hout. by apply (list_elem_of_fmap_2 ID) in Hin.
    + apply (Hcross r _ Hr Hin).
Qed.

End SearchMore.

(** ** Queries and the query loop *)

Section TrimFacts.

Import strings.

Lemma Fields_from_whitespace field s :
  whitespace_only s = true →
  Fields_from field s = match field with "" => [] | _ => [field] end.
Proof.
  revert field; induction s as [|c s IH]; intros field; [done|].
  simpl. destruct (asciiSpace c); [|done]. intros Hs.
  rewrite (IH "" Hs). by destruct field.
Qed.

Lemma trim_stop_empty s : trim_stop s = "" ↔ whitespace_only s = true.
Proof.
  induction s as [|c s IH]; [done|]. simpl.
  destruct (trim_stop s) as [|a rest].
  - destruct (asciiSpace c); simpl; [|done].
    split; intros _; [by apply IH|done].
  - destruct (asciiSpace c); simpl; [|done].
    split; [done|]. by intros ?%IH.
Qed.

Lemma whitespace_only_trim_start s :
  whitespace_only (trim_start s) = whitespace_only s.
Proof.
  induction s as [|c s IH]; [done|]. simpl.
  destruct (asciiSpace c) eqn:Hc; [done|]. simpl. by rewrite Hc.
Qed.

(** [TrimSpace] leaves nothing exactly of the strings that are white
    space throughout. *)
Lemma TrimSpace_empty s : TrimSpace s = "" ↔ whitespace_only s = true.
Proof.
  unfold TrimSpace. by rewrite trim_stop_empty, whitespace_only_trim_start.
Qed.

Lemma Fields_trim_start s : Fields (trim_start s) = Fields s.
Proof.
  unfold Fields. induction s as [|c s IH]; [done|]. simpl.
  destruct (asciiSpace c) eqn:Hc; [done|]. simpl. by rewrite Hc.
Qed.

Lemma Fields_from_trim_stop field s :
  Fields_from field (trim_stop s) = Fields_from field s.
Proof.
  revert field; induction s as [|c s IH]; intros field; [done|].
  cbn [trim_stop]. destruct (trim_stop s) as [|a rest] eqn:E.
  - apply trim_stop_empty in E.
    destruct (asciiSpace c) eqn:Hc; cbn [Fields_from]; rewrite Hc.
    + rewrite (Fields_from_whitespace "" s E). by destruct field.
    + by rewrite (Fields_from_whitespace _ s E).
  - cbn [Fields_from]. destruct (asciiSpace c).
    + rewrite <- (IH ""). by destruct field.
    + by rewrite <- IH.
Qed.

(** The tokens of a text do not depend on the white space around it. *)
Lemma Fields_TrimSpace s : Fields (TrimSpace s) = Fields s.
Proof.
  unfold TrimSpace. rewrite <- (Fields_trim_start s).
  apply Fields_from_trim_stop.
Qed.

Lemma ToLower_trim_start s : ToLower (trim_start s) = trim_start (ToLower s).
Proof.
  induction s as [|c s IH]; [done|]. simpl.
  rewrite asciiSpace_lower_byte. by destruct (asciiSpace c).
Qed.

Lemma ToLower_trim_stop s : ToLower (trim_stop s) = trim_stop (ToLower s).
Proof.
  induction s as [|c s IH]; [done|]. simpl.
  rewrite <- IH, asciiSpace_lower_byte.
  destruct (trim_stop s) as [|a rest]; [by destruct (asciiSpace c)|done].
Qed.

Lemma ToLower_TrimSpace s : ToLower (TrimSpace s) = TrimSpace (ToLower s).
Proof. unfold TrimSpace. by rewrite ToLower_trim_stop, ToLower_trim_start. Qed.

End TrimFacts.

Section QueryFacts.

Variable Log : float → float.

(** The tokens that [Search] scores (line 80) do not depend on the case of
    the query nor on the white space around it. *)
Lemma query_tokens_ToLower (query : string) :
  strings.Fields (strings.ToLower (strings.ToLower query)) =
    strings.Fields (strings.ToLower query).
Proof. by rewrite ToLower_idem. Qed.

Lemma query_tokens_TrimSpace (query : string) :
  strings.Fields (strings.ToLower (strings.TrimSpace query)) =
    strings.Fields (strings.ToLower query).
Proof. by rewrite ToLower_TrimSpace, Fields_TrimSpace. Qed.

(** X16. For a query of ASCII text, the token list that [Search] hands to
    the scorer is the same for the query, for the query in lower case and
    for the query as [main] trims it; so the score map that ranks the
    results is the same for the three. *)
Theorem Search_tokens_normal (se : SearchEngine) (query : string) :
  ascii_text query = true →
  strings.Fields (strings.ToLower (strings.ToLower query)) =
    strings.Fields (strings.ToLower query) ∧
  strings.Fields (strings.ToLower (strings.TrimSpace query)) =
    strings.Fields (strings.ToLower query) ∧
  CalculateTFIDFScore Log se
    (strings.Fields (strings.ToLower (strings.ToLower query))) =
    CalculateTFIDFScore Log se (strings.Fields (strings.ToLower query)) ∧
  CalculateTFIDFScore Log se
    (strings.Fields (strings.ToLower (strings.TrimSpace query))) =
    CalculateTFIDFScore Log se (strings.Fields (strings.ToLower query)).
Proof.
  intros _. by rewrite query_tokens_ToLower, query_tokens_TrimSpace.
Qed.

(** The loop from round [round] on. *)
Lemma main_loop_from (range_of_round : nat → gmap Z float → list (Z * float))
    (se : SearchEngine) (lines rest : list string) (round : nat) :
  (∀ n scores, range_of_round n scores ≡ₚ map_to_list scores) →
  postings_in_range se →
  Forall (λ line, ascii_text line = true ∧ whitespace_only line = false) lines →
  (∀ line, head rest = Some line → whitespace_only line = true) →
  ∃ answers,
    main_loop Log range_of_round se round (lines ++ rest) = (answers, Returned) ∧
    length answers = length lines ∧
    ∀ i line, lines !! i = Some line →
      ∃ results,
        Search Log (range_of_round (round + i)%nat) se (strings.TrimSpace line)
          = Some results ∧
        answers !! i =
          Some (mkAnswer (len results) (strings.TrimSpace line)
                  ((λ result, (Content result, Score result)) <$> results)).
Proof.
  intros Hperm Hrange Hlines Hrest. revert round.
  induction Hlines as [|line lines [_ Hline] _ IH]; intros round.
  - exists []. split; [|done]. cbn [app].
    destruct rest as [|blank rest']; [done|]. cbn [main_loop].
    by rewrite (proj2 (TrimSpace_empty blank) (Hrest blank eq_refl)).
  - destruct (IH (S round)) as (answers & Hloop & Hlen & Hans).
    destruct (Search_total Log (range_of_round round) (Hperm round) se
                (strings.TrimSpace line) Hrange) as [results Hresults].
    exists (mkAnswer (len results) (strings.TrimSpace line)
              ((λ result, (Content result, Score result)) <$> results) :: answers).
    split; [|split].
    + cbn [app main_loop].
      destruct (strings.TrimSpace line) eqn:E.
      { apply TrimSpace_empty in E. congruence. }
      by rewrite Hresults, Hloop.
    + simpl. by rewrite Hlen.
    + intros [|i] line'; simpl.
      * intros [= <-]. exists results. by rewrite Nat.add_0_r.
      * intros Hi. destruct (Hans i line' Hi) as (results' & Hs & Ha).
        exists results'. split; [|done]. by rewrite <- Nat.add_succ_comm.
Qed.

(** X17. The query loop on an engine whose posting lists hold valid
    indices, fed reads of ASCII text: it answers every read before the
    first one that is white space throughout (or before the end of the
    input), the read of round [i] with the results of the call of [Search]
    of that round on the query as trimmed, whatever order each map range
    takes, and then returns; it never panics and never answers a later
    read. *)
Theorem main_loop_answers
    (range_of_round : nat → gmap Z float → list (Z * float))
    (se : SearchEngine) (lines rest : list string) :
  (∀ n scores, range_of_round n scores ≡ₚ map_to_list scores) →
  postings_in_range se →
  Forall (λ line, ascii_text line = true ∧ whitespace_only line = false) lines →
  (∀ line, head rest = Some line → whitespace_only line = true) →
  ∃ answers,
    main_loop Log range_of_round se 0 (lines ++ rest) = (answers, Returned) ∧
    length answers = length lines ∧
    ∀ i line, lines !! i = Some line →
      ∃ results,
        Search Log (range_of_round i) se (strings.TrimSpace line) = Some results ∧
        answers !! i =
          Some (mkAnswer (len results) (strings.TrimSpace line)
                  ((λ result, (Content result, Score result)) <$> results)).
Proof. apply main_loop_from. Qed.

End QueryFacts.

(** ** The further statements on sample inputs *)

Lemma posting_list_multiplicity_witness :
  BuildInvertedIndex twice_documents !! "a" = Some [0; 0] ∧
  NoDup (ID <$> twice_documents) ∧
  len [0; 0] = corpus_token_count "a" twice_documents ∧
  len (filter (λ docID, docID = 0) [0; 0]) = token_count "a" "a a".
Proof.
  assert (Hnd : NoDup (ID <$> twice_documents)).
  { apply (bool_decide_unpack _). by vm_compute. }
  split; [reflexivity|]. split; [exact Hnd|].
  destruct (posting_list_multiplicity twice_documents "a" [0; 0] eq_refl)
    as [Hlen Hdoc].
  split; [exact Hlen|].
  apply (Hdoc Hnd (mkDocument 0 "a a" 0)). left.
Defined.

Lemma index_entry_iff_witness :
  BuildInvertedIndex fox_documents !! "the" = Some [0; 1] ∧
  [0; 1] ≠ [] ∧
  ∀ docID, docID ∈ [0; 1] ↔
           ∃ doc, doc ∈ fox_documents ∧ ID doc = docID ∧
                  "the" ∈ strings.Fields (strings.ToLower (Content doc)).
Proof.
  split; [reflexivity|].
  apply (proj2 (index_entry_iff fox_documents "the") [0; 1]). reflexivity.
Defined.

Lemma index_key_shape_witness :
  is_Some (BuildInvertedIndex fox_documents !! "fox") ∧
  "fox" ≠ "" ∧ strings.ToLower "fox" = "fox" ∧
  all_bytes (λ c, negb (strings.asciiSpace c)) "fox" = true.
Proof.
  assert (H : is_Some (BuildInvertedIndex fox_documents !! "fox"))
    by (by eexists).
  split; [exact H|]. exact (index_key_shape fox_documents "fox" H).
Defined.

Lemma posting_list_sorted_witness :
  dense main_documents ∧
  ∃ docSet,
    BuildInvertedIndex main_documents !! "fox" = Some docSet ∧
    ∀ i j a b, docSet !! i = Some a → docSet !! j = Some b → (i ≤ j)%nat → a ≤ b.
Proof.
  split; [exact dense_main_documents|].
  eexists. split; [vm_compute; reflexivity|].
  apply (posting_list_sorted main_documents "fox" _ dense_main_documents).
  vm_compute. reflexivity.
Defined.

Lemma indexed_tf_positive_witness :
  dense fox_documents ∧
  BuildInvertedIndex fox_documents !! "the" = Some [0; 1] ∧
  1 ∈ [0; 1] ∧
  ∃ doc, at_index fox_documents 1 = Some doc ∧
         0 < strings.Count (strings.ToLower (Content doc)) "the".
Proof.
  assert (Hin : 1 ∈ [0; 1]) by (right; left).
  split; [exact dense_fox_documents|]. split; [reflexivity|]. split; [exact Hin|].
  exact (indexed_tf_positive fox_documents "the" [0; 1] 1
           dense_fox_documents eq_refl Hin).
Defined.

Lemma scorers_candidates_witness :
  ∃ scores_tfidf scores_bm25,
    CalculateTFIDFScore Log_near_1 (main_searchEngine fox_documents) ["the"; "fox"]
      = Some scores_tfidf ∧
    CalculateBM25Score Log_near_1 (main_searchEngine fox_documents) ["the"; "fox"]
      = Some scores_bm25 ∧
    (∀ d, is_Some (scores_tfidf !! d) ↔
          candidate (main_searchEngine fox_documents) ["the"; "fox"] d) ∧
    (∀ d, is_Some (scores_bm25 !! d) ↔
          candidate (main_searchEngine fox_documents) ["the"; "fox"] d) ∧
    dom scores_tfidf = dom scores_bm25.
Proof.
  eexists. eexists.
  split; [vm_compute; reflexivity|]. split; [vm_compute; reflexivity|].
  apply (scorers_candidates Log_near_1 (main_searchEngine fox_documents)
           ["the"; "fox"]); vm_compute; reflexivity.
Defined.

Lemma CalculateTFIDFScore_sum_witness :
  ∃ scores,
    CalculateTFIDFScore Log_near_1 (main_searchEngine twice_documents) ["a"]
      = Some scores ∧
    ∀ d, scores !! d =
           accumulate None
             (contributions (tfidf_term Log_near_1)
                (main_searchEngine twice_documents) ["a"] d).
Proof.
  eexists. split; [vm_compute; reflexivity|].
  apply (CalculateTFIDFScore_sum Log_near_1 (main_searchEngine twice_documents) ["a"]).
  vm_compute. reflexivity.
Defined.

Lemma CalculateTFIDFScore_NoDup_witness :
  postings_in_range (main_searchEngine fox_documents) ∧
  (∀ t docSet, index (main_searchEngine fox_documents) !! t = Some docSet →
               NoDup docSet) ∧
  ∃ scores,
    CalculateTFIDFScore Log_near_1 (main_searchEngine fox_documents) ["the"; "fox"]
      = Some scores ∧
    ∀ d, scores !! d =
           if decide (Exists (λ t, d ∈ spec_postings (main_searchEngine fox_documents) t)
                        ["the"; "fox"])
           then Some (spec_tfidf_score Log_near_1
                        (main_searchEngine fox_documents) ["the"; "fox"] d)
           else None.
Proof.
  assert (Hrange : postings_in_range (main_searchEngine fox_documents))
    by apply dense_postings_in_range, dense_fox_documents.
  assert (Hnd : ∀ t docSet,
            index (main_searchEngine fox_documents) !! t = Some docSet →
            NoDup docSet).
  { apply map_Forall_lookup. apply (bool_decide_unpack _). by vm_compute. }
  split; [exact Hrange|]. split; [exact Hnd|].
  exact (CalculateTFIDFScore_NoDup Log_near_1 (main_searchEngine fox_documents)
           ["the"; "fox"] Hrange Hnd).
Defined.

Lemma Search_returns_iff_witness :
  (∀ scores : gmap Z float, map_to_list scores ≡ₚ map_to_list scores) ∧
  (is_Some (Search Log_near_1 map_to_list (main_searchEngine fox_documents) "fox") ↔
   query_in_range (main_searchEngine fox_documents)
     (strings.Fields (strings.ToLower "fox"))).
Proof.
  split; [done|].
  exact (Search_returns_iff Log_near_1 map_to_list (λ _, reflexivity _)
           (main_searchEngine fox_documents) "fox").
Defined.

Lemma Search_results_scored_witness :
  (∀ scores : gmap Z float, map_to_list scores ≡ₚ map_to_list scores) ∧
  ∃ results,
    Search Log_near_1 map_to_list (main_searchEngine main_documents) "the fox"
      = Some results ∧
    ∃ scores,
      CalculateTFIDFScore Log_near_1 (main_searchEngine main_documents)
        (strings.Fields (strings.ToLower "the fox")) = Some scores ∧
      NoDup (ID <$> results) ∧
      ∀ r, r ∈ results →
           scores !! ID r = Some (Score r) ∧
           ∃ doc, at_index (documents (main_searchEngine main_documents)) (ID r)
                    = Some doc ∧
                  Content r = Content doc.
Proof.
  split; [done|].
  eexists. split; [vm_compute; reflexivity|].
  apply (Search_results_scored Log_near_1 map_to_list (λ _, reflexivity _)
           (main_searchEngine main_documents) "the fox").
  vm_compute. reflexivity.
Defined.

Lemma Search_complete_witness :
  (∀ scores : gmap Z float, map_to_list scores ≡ₚ map_to_list scores) ∧
  ∃ results scores,
    Search Log_near_1 map_to_list (main_searchEngine fox_documents) "the"
      = Some results ∧
    CalculateTFIDFScore Log_near_1 (main_searchEngine fox_documents)
      (strings.Fields (strings.ToLower "the")) = Some scores ∧
    (size scores ≤ 10)%nat ∧
    ∀ d x, scores !! d = Some x → ∃ r, r ∈ results ∧ ID r = d ∧ Score r = x.
Proof.
  split; [done|].
  eexists. eexists.
  split; [vm_compute; reflexivity|]. split; [vm_compute; reflexivity|].
  split; [vm_compute; lia|].
  apply (Search_complete Log_near_1 map_to_list (λ _, reflexivity _)
           (main_searchEngine fox_documents) "the");
    [vm_compute; reflexivity | vm_compute; reflexivity | vm_compute; lia].
Defined.

Lemma Search_top_witness :
  (∀ scores : gmap Z float, map_to_list scores ≡ₚ map_to_list scores) ∧
  ∃ results scores,
    Search Log_near_1 map_to_list (main_searchEngine main_documents) "the"
      = Some results ∧
    CalculateTFIDFScore Log_near_1 (main_searchEngine main_documents)
      (strings.Fields (strings.ToLower "the")) = Some scores ∧
    (∀ d x, scores !! d = Some x → PrimFloat.is_nan x = false) ∧
    (∀ i j a b, results !! i = Some a → results !! j = Some b → (i < j)%nat →
                (Score b <=? Score a)%float = true) ∧
    (∀ d x, scores !! d = Some x → d ∉ ID <$> results →
            ∀ r, r ∈ results → (x <=? Score r)%float = true).
Proof.
  split; [done|].
  exists (default []
            (Search Log_near_1 map_to_list (main_searchEngine main_documents) "the")),
         (default ∅
            (CalculateTFIDFScore Log_near_1 (main_searchEngine main_documents)
               (strings.Fields (strings.ToLower "the")))).
  assert (Hnum : ∀ d x,
            default ∅
              (CalculateTFIDFScore Log_near_1 (main_searchEngine main_documents)
                 (strings.Fields (strings.ToLower "the"))) !! d = Some x →
            PrimFloat.is_nan x = false).
  { apply map_Forall_lookup. apply (bool_decide_unpack _). by vm_compute. }
  split; [vm_compute; reflexivity|]. split; [vm_compute; reflexivity|].
  split; [exact Hnum|].
  apply (Search_top Log_near_1 map_to_list (λ _, reflexivity _)
           (main_searchEngine main_documents) "the");
    [vm_compute; reflexivity | vm_compute; reflexivity | exact Hnum].
Defined.

(** ** The term frequency of the scorers *)

Section TermFrequencyFacts.

Variable Log : float → float.






(** *** C5 *)


(** The scorer on an engine with the key "Cat": the term frequency of
    "Cat" in the document "Cat" is taken as 0. *)
Example CalculateTFIDFScore_capital_term :
  ∃ scores,
    CalculateTFIDFScore Log capital_engine ["Cat"] = Some scores ∧
    scores !! 0 = Some (0 + float64 0 * Log 1)%float.
Proof. eexists. split; vm_compute; reflexivity. Qed.

End TermFrequencyFacts.



Lemma Search_tokens_normal_witness :
  ascii_text " The  FOX " = true ∧
  strings.Fields (strings.ToLower (strings.TrimSpace " The  FOX ")) =
    strings.Fields (strings.ToLower " The  FOX ") ∧
  strings.Fields (strings.ToLower " The  FOX ") = ["the"; "fox"].
Proof.
  split; [reflexivity|].
  destruct (Search_tokens_normal Log_near_1 (main_searchEngine fox_documents)
              " The  FOX " eq_refl) as (_ & Htrim & _).
  split; [exact Htrim|reflexivity].
Defined.

Lemma main_loop_answers_witness :
  (∀ n scores, alternating_range n scores ≡ₚ map_to_list scores) ∧
  postings_in_range (main_searchEngine fox_documents) ∧
  Forall (λ line, ascii_text line = true ∧ whitespace_only line = false)
    [" The "; "the DOG"] ∧
  ∃ answers,
    main_loop Log_near_1 alternating_range (main_searchEngine fox_documents) 0
      ([" The "; "the DOG"] ++ ["  "; "cat"]) = (answers, Returned) ∧
    length answers = 2%nat ∧
    ∀ i line, [" The "; "the DOG"] !! i = Some line →
      ∃ results,
        Search Log_near_1 (alternating_range i) (main_searchEngine fox_documents)
          (strings.TrimSpace line) = Some results ∧
        answers !! i =
          Some (mkAnswer (len results) (strings.TrimSpace line)
                  ((λ result, (Content result, Score result)) <$> results)).
Proof.
  assert (Hperm : ∀ n scores, alternating_range n scores ≡ₚ map_to_list scores).
  { intros n scores. unfold alternating_range.
    destruct (Nat.even n); [done|apply reverse_Permutation]. }
  assert (Hrange : postings_in_range (main_searchEngine fox_documents))
    by apply dense_postings_in_range, dense_fox_documents.
  assert (Hlines : Forall (λ line, ascii_text line = true ∧
                                   whitespace_only line = false)
                     [" The "; "the DOG"]) by (by repeat constructor).
  split; [exact Hperm|]. split; [exact Hrange|]. split; [exact Hlines|].
  apply (main_loop_answers Log_near_1 alternating_range
           (main_searchEngine fox_documents) [" The "; "the DOG"] ["  "; "cat"]
           Hperm Hrange Hlines).
  intros line [= <-]. reflexivity.
Defined.
